(** * Wordle entropy assistant: the engine of [src/App.jsx]

    A shallow embedding of the engine functions of [src/App.jsx]
    ([feedbackFor], [feedbackKey], [filterCandidates],
    [computeEntropyForGuess], [mostLikelyCandidate]), of the ranking
    effect of the [App] component, of its handlers ([applyGuess],
    [undoLast], [resetAll], [setFeedbackAt]) and of its loader, followed by
    the properties the specification states about them and by further
    properties read off the code.

    Modelling conventions.
    - A JavaScript string is a [string]; [split("")] yields the list of its
      characters.  Reading an array past its end yields [undefined], which
      is [None] of a list lookup [l !! i]; [===] between two such reads is
      equality of the two options.
    - An array that is written by index ([res[i] = v], always in range in
      this program) is a list with stdpp's [<[i:=v]>].
    - A value that may be [null] or [undefined] at a function's boundary
      ([!words], [!history], [!candidates]) is an [option].
    - A counted loop [for (let i = 0; i < n; i++)] is a fold over
      [seq 0 n]; a loop left by [break] or [return] is a [Fixpoint] over
      the remaining indices.
    - JavaScript numbers holding counts are [nat].  The entropy has two
      embeddings.  [computeEntropyForGuess] is the exact value of the
      source's formula, a real number ([R]) as in the specification's data
      model ("bits: non-negative real number"): division, product, sum and
      logarithm are the exact real operations.
      [Binary64.computeEntropyForGuess] is the number the program returns:
      the same loops in binary64 arithmetic (primitive floats), with
      [Math.log2], whose result the language leaves to the implementation,
      as a parameter.  A statement about the exact value says so. *)

From Stdlib Require Import Reals Lra Ascii Sorted Permutation.
From Stdlib Require Import PrimFloat.
From Stdlib Require Uint63.
From stdpp Require Import list strings.

Open Scope string_scope.
Open Scope list_scope.
Open Scope nat_scope.

(** ** Data model *)

(** The [Result] object of the source: three string constants. *)
Inductive Result : Type := CORRECT | PRESENT | ABSENT.

#[global] Instance Result_eq_dec : EqDecision Result.
Proof. solve_decision. Defined.

(** The string each constant stands for (used by [feedbackKey]). *)
Definition Result_name (r : Result) : string :=
  match r with
  | CORRECT => "CORRECT"
  | PRESENT => "PRESENT"
  | ABSENT => "ABSENT"
  end.

(** [{ guess, feedback }], an entry of the history array. *)
Record HistoryEntry : Type := mkEntry {
  guess : string;
  feedback : list Result
}.

(** [s.split("")] *)
Definition split (s : string) : list ascii := String.list_ascii_of_string s.

(** Truthiness of an array cell holding a boolean ([undefined] is falsy). *)
Definition truthy (c : option bool) : bool := default false c.

(** ** feedbackFor *)

Module Feedback.

(** The two arrays the function updates: [res] and [aUsed]. *)
Definition state : Type := list Result * list bool.

(** Body of the first loop:
    [if (g[i] === a[i]) { res[i] = CORRECT; aUsed[i] = true; }] *)
Definition pass1_step (g a : list ascii) (st : state) (i : nat) : state :=
  if decide (g !! i = a !! i)
  then (<[i:=CORRECT]> st.1, <[i:=true]> st.2)
  else st.

(** The inner loop of the second pass over the remaining indices [js]:
    [if (aUsed[j]) continue;
     if (g[i] === a[j]) { res[i] = PRESENT; aUsed[j] = true; break; }] *)
Fixpoint scan (g a : list ascii) (i : nat) (js : list nat) (st : state)
  : state :=
  match js with
  | [] => st
  | j :: js' =>
      if truthy (st.2 !! j) then scan g a i js' st
      else if decide (g !! i = a !! j)
           then (<[i:=PRESENT]> st.1, <[j:=true]> st.2)
           else scan g a i js' st
  end.

(** Body of the second loop, [n] being the bound of the inner loop:
    [if (res[i] === CORRECT) continue; for (let j = 0; j < n; j++) ...] *)
Definition pass2_step (n : nat) (g a : list ascii) (st : state) (i : nat)
  : state :=
  if decide (st.1 !! i = Some CORRECT) then st
  else scan g a i (seq 0 n) st.

(** The two loops one after the other on arrays of [n] cells. *)
Definition run (n : nat) (g a : list ascii) : state :=
  let res := replicate n ABSENT in
  let aUsed := replicate n false in
  let st1 := foldl (pass1_step g a) (res, aUsed) (seq 0 n) in
  foldl (pass2_step n g a) st1 (seq 0 n).

End Feedback.

(** [feedbackFor(guess, answer)]: the arrays have 5 cells and every loop
    runs to 5, whatever the lengths of the two strings. *)
Definition feedbackFor (guess answer : string) : list Result :=
  (Feedback.run 5 (split guess) (split answer)).1.

(** [feedbackKey(feedback)]: [feedback.join("|")]. *)
Definition feedbackKey (fb : list Result) : string :=
  String.concat "|" (Result_name <$> fb).

(** ** filterCandidates *)

(** The loop [for (let i = 0; i < expected.length; i++)
    if (expected[i] !== actual[i]) return false;] over the remaining
    indices; [true] when it runs to its end. *)
Fixpoint same_cells (expected actual : list Result) (idxs : list nat) : bool :=
  match idxs with
  | [] => true
  | i :: idxs' =>
      if decide (expected !! i = actual !! i)
      then same_cells expected actual idxs'
      else false
  end.

(** The callback of [words.filter]: the loop over [history], left with
    [false] at the first entry that disagrees. *)
Fixpoint consistent (history : list HistoryEntry) (candidate : string)
  : bool :=
  match history with
  | [] => true
  | h :: rest =>
      let expected := feedback h in
      let actual := feedbackFor (guess h) candidate in
      if negb (length expected =? length actual)%nat then false
      else if same_cells expected actual (seq 0 (length expected))
           then consistent rest candidate
           else false
  end.

Definition filterCandidates (words : option (list string))
    (history : option (list HistoryEntry)) : list string :=
  match words with
  | None => []
  | Some ws =>
      if (length ws =? 0)%nat then []
      else match history with
           | None => ws
           | Some hs =>
               if (length hs =? 0)%nat then ws
               else List.filter (consistent hs) ws
           end
  end.

(** ** mostLikelyCandidate *)

Definition mostLikelyCandidate (candidates : option (list string))
  : option string :=
  match candidates with
  | None => None
  | Some cs => if (length cs =? 0)%nat then None else cs !! 0
  end.

(** ** computeEntropyForGuess

    The counting loop, and the sum as the exact value of its formula (the
    sum in the program's own arithmetic is [Binary64.computeEntropyForGuess]
    further down). *)

(** The object [counts = Object.create(null)]: its own properties, all
    with string keys that are not array indices, are enumerated by
    [for (const k in counts)] in the order they were created. *)
Module Counts.

Definition t : Type := list (string * nat).

(** [counts[key]] *)
Fixpoint get (key : string) (counts : t) : option nat :=
  match counts with
  | [] => None
  | (k, c) :: rest => if decide (k = key) then Some c else get key rest
  end.

(** [counts[key] = v]: an existing property keeps its place, a new one is
    created after the others. *)
Fixpoint set (key : string) (v : nat) (counts : t) : t :=
  match counts with
  | [] => [(key, v)]
  | (k, c) :: rest =>
      if decide (k = key) then (k, v) :: rest else (k, c) :: set key v rest
  end.

End Counts.

(** [x || 0] on a count that may be [undefined]. *)
Definition or_zero (x : option nat) : nat :=
  match x with
  | Some (S c) => S c
  | _ => 0
  end.

(** Body of the counting loop:
    [const key = feedbackKey(feedbackFor(guess, ans));
     counts[key] = (counts[key] || 0) + 1;] *)
Definition tally (guess : string) (counts : Counts.t) (ans : string)
  : Counts.t :=
  let key := feedbackKey (feedbackFor guess ans) in
  Counts.set key (or_zero (Counts.get key counts) + 1) counts.

(** [Math.log2] *)
Definition log2 (x : R) : R := (ln x / ln 2)%R.

(** Body of the summing loop:
    [const p = counts[k] / n; entropy += -p * Math.log2(p);] *)
Definition add_term (n : nat) (entropy : R) (kc : string * nat) : R :=
  let p := (INR kc.2 / INR n)%R in
  (entropy + - p * log2 p)%R.

Definition computeEntropyForGuess (guess : string)
    (candidates : option (list string)) : R :=
  match candidates with
  | None => 0%R
  | Some cs =>
      if (length cs =? 0)%nat then 0%R
      else
        let counts := foldl (tally guess) [] cs in
        let n := length cs in
        foldl (add_term n) 0%R counts
  end.

(** ** The ranking effect of [App] *)

(** [{ guess: g, bits }] *)
Module Suggestion.
Record t : Type := mk { guess : string; bits : R }.
End Suggestion.

(** The loop [for (const g of cands) ent.push({ guess: g, bits })]. *)
Definition rank (cands : list string) : list Suggestion.t :=
  (λ g, Suggestion.mk g (computeEntropyForGuess g (Some cands))) <$> cands.

(** The comparator [(a, b) => b.bits - a.bits]. *)
Definition byBitsDescending (a b : Suggestion.t) : R :=
  (Suggestion.bits b - Suggestion.bits a)%R.

(** [Array.prototype.sort(comparator)], which is stable: an element goes
    behind another one only when the comparator asks for it with a positive
    number, and elements the comparator does not order keep the order they
    came in.  Written as the insertion sort that has this behaviour. *)
Module ArraySort.
Section Sort.
Context {A : Type} (comparator : A → A → R).

Fixpoint insert (x : A) (sorted : list A) : list A :=
  match sorted with
  | [] => [x]
  | y :: rest =>
      if Rlt_dec 0 (comparator x y) then y :: insert x rest
      else x :: y :: rest
  end.

Fixpoint sort (l : list A) : list A :=
  match l with
  | [] => []
  | x :: rest => insert x (sort rest)
  end.

End Sort.
End ArraySort.

(** [ent.sort((a, b) => b.bits - a.bits); setTopGuesses(ent.slice(0, 10))] *)
Definition selectTop (ent : list Suggestion.t) : list Suggestion.t :=
  take 10 (ArraySort.sort byBitsDescending ent).

(** The second effect of [App]: the candidates and the top guesses that
    are stored for a dictionary and a history. *)
Definition topGuesses (words : list string) (history : list HistoryEntry)
  : list Suggestion.t :=
  let cands := filterCandidates (Some words) (Some history) in
  selectTop (rank cands).

(** ** The two-pass algorithm as the specification words it

    Written from the specification's section 4.1, on the letters of the two
    words rather than on indexed arrays, to be compared with [feedbackFor]. *)
Module TwoPass.

(** Pass 1: position by position, [CORRECT] and "consumed" where the two
    letters agree.  A position that is not [CORRECT] is left at [ABSENT]
    until pass 2 decides it. *)
Definition pass1 (g a : list ascii) : list Result * list bool :=
  (zip_with (λ x y, if decide (x = y) then CORRECT else ABSENT) g a,
   zip_with (λ x y, bool_decide (x = y)) g a).

(** The first answer position, scanning left to right, that is not consumed
    and holds the letter [x]. *)
Fixpoint first_unconsumed (x : ascii) (a : list ascii) (consumed : list bool)
  : option nat :=
  match a, consumed with
  | y :: a', c :: consumed' =>
      if negb c && bool_decide (x = y) then Some 0
      else S <$> first_unconsumed x a' consumed'
  | _, _ => None
  end.

(** Pass 2 over the guess positions that remain, each with its letter and
    its pass-1 mark: a [CORRECT] position is kept; another one becomes
    [PRESENT] and consumes the first unconsumed answer position holding its
    letter, or becomes [ABSENT] when there is none. *)
Fixpoint pass2 (marks : list (ascii * Result)) (a : list ascii)
    (consumed : list bool) : list Result :=
  match marks with
  | [] => []
  | (x, CORRECT) :: rest => CORRECT :: pass2 rest a consumed
  | (x, _) :: rest =>
      match first_unconsumed x a consumed with
      | Some j => PRESENT :: pass2 rest a (<[j:=true]> consumed)
      | None => ABSENT :: pass2 rest a consumed
      end
  end.

Definition classify (guess answer : string) : list Result :=
  let g := split guess in
  let a := split answer in
  let p1 := pass1 g a in
  pass2 (zip g p1.1) a p1.2.

End TwoPass.

(** ** Vocabulary of the duplicate-letter properties *)

(** Number of occurrences of the letter [x] in a word. *)
Definition occurrences (x : ascii) (w : list ascii) : nat :=
  length (filter (λ y, y = x) w).

(** The marks a feedback gives to the occurrences of the letter [x] in the
    guess, from left to right. *)
Definition marks_at (x : ascii) (g : list ascii) (fb : list Result)
  : list Result :=
  (filter (λ e, e.1 = x) (zip g fb)).*2.

(** Number of answer positions that hold [x] and are not consumed. *)
Definition free (x : ascii) (a : list ascii) (consumed : list bool) : nat :=
  length (filter (λ e, e.1 = x ∧ e.2 = false) (zip a consumed)).

(** ** Vocabulary of the entropy properties *)

(** The sum of the counts held by the object [counts]. *)
Definition total (counts : Counts.t) : nat := sum_list counts.*2.

(** ** The callers' validation

    The only length checks of the program are in the component, before the
    engine is called: the loader keeps the lines that pass
    [/^[a-z]{5}$/.test(s)], and [applyGuess] returns without touching the
    history when its guess fails the same test. *)

(** A code unit in [a-z]. *)
Definition is_lower (c : ascii) : bool :=
  (97 <=? nat_of_ascii c) && (nat_of_ascii c <=? 122).

(** [/^[a-z]{5}$/.test(s)] *)
Definition validWord (s : string) : bool :=
  (length (split s) =? 5) && forallb is_lower (split s).

(** The last step of the loader, on the lines already trimmed and put in
    lower case: [.filter((s) => /^[a-z]{5}$/.test(s))]. *)
Definition loadWords (lines : list string) : list string :=
  List.filter validWord lines.

(** [applyGuess], on the guess text already trimmed and put in lower
    case, as a function of the history:
    [if (!/^[a-z]{5}$/.test(guess)) { alert(...); return; }
     setHistory((h) => [{ guess, feedback: feedbackBoxes.slice() }, ...h]);] *)
Definition applyGuess (guessText : string) (feedbackBoxes : list Result)
    (history : list HistoryEntry) : list HistoryEntry :=
  if negb (validWord guessText) then history
  else mkEntry guessText feedbackBoxes :: history.

(** ** How a call completes

    A JavaScript call completes normally with a value or abruptly with a
    thrown one.  The bodies of [feedbackFor] and [filterCandidates] hold no
    [throw], and on strings and arrays each of their operations ([split],
    [fill], reading and writing a cell, [length], [filter], [slice])
    completes normally: their calls complete normally with what the
    embeddings above compute. *)
Inductive Completion (A : Type) : Type :=
  | Normal (value : A)
  | Throw (error : string).
Arguments Normal {A} value.
Arguments Throw {A} error.

Definition call_feedbackFor (guess answer : string)
  : Completion (list Result) :=
  Normal (feedbackFor guess answer).

Definition call_filterCandidates (words : option (list string))
    (history : option (list HistoryEntry)) : Completion (list string) :=
  Normal (filterCandidates words history).

(** The failure the specification names. *)
Definition InvalidWordLength : string := "InvalidWordLength".

(** ** Vocabulary of the ordering properties *)

(** Lexicographic order of two words, by code units. *)
Definition lex_le (s1 s2 : string) : Prop := String.leb s1 s2 = true.

(** [w] is the lexicographically first element of [cs]. *)
Definition lex_first (w : string) (cs : list string) : Prop :=
  w ∈ cs ∧ ∀ w', w' ∈ cs → lex_le w w'.

#[global] Instance R_eq_dec : EqDecision R := Req_dec_T.

(** Descending by bits: every suggestion has at least the bits of those
    behind it. *)
Definition descending (l : list Suggestion.t) : Prop :=
  StronglySorted (λ s1 s2, (Suggestion.bits s2 <= Suggestion.bits s1)%R) l.

(** Ties broken lexicographically: of two suggestions with equal bits the
    one in front has the lexicographically smaller guess. *)
Definition ties_lexicographic (l : list Suggestion.t) : Prop :=
  ∀ i j s1 s2, i < j → l !! i = Some s1 → l !! j = Some s2 →
    Suggestion.bits s1 = Suggestion.bits s2 →
    lex_le (Suggestion.guess s1) (Suggestion.guess s2).

(** The suggestions of [l] that have [b] bits, in the order of [l]. *)
Definition with_bits (b : R) (l : list Suggestion.t) : list Suggestion.t :=
  filter (λ s, Suggestion.bits s = b) l.

(** ** Vocabulary of the loop invariants *)

(** Both arrays of a state have [n] cells. *)
Definition cells (n : nat) (st : Feedback.state) : Prop :=
  length st.1 = n ∧ length st.2 = n.

(** ** Vocabulary of the counting loop *)

(** The counting loop of [computeEntropyForGuess] on its own: the object
    [counts] once every candidate has been counted. *)
Definition countPatterns (guess : string) (candidates : list string)
  : Counts.t :=
  foldl (tally guess) [] candidates.

(** Number of candidates whose feedback for [guess] has the key [key]. *)
Definition pattern_count (guess key : string) (candidates : list string)
  : nat :=
  length (filter (λ w, feedbackKey (feedbackFor guess w) = key) candidates).

(** What reading a count gives: [undefined] for a key never counted. *)
Definition count_read (n : nat) : option nat :=
  match n with
  | 0 => None
  | S _ => Some n
  end.

(** ** The handlers of the component

    The part of the component's state that its handlers read and write,
    and the handlers as functions of that state.  [normalise] stands for
    [s.trim().toLowerCase()], two library functions on strings that are
    taken as a parameter: what is proved holds whatever they return. *)
Module App.

Record state : Type := mk {
  guessText : string;
  feedbackBoxes : list Result;
  history : list HistoryEntry
}.

(** The values given to [useState]. *)
Definition initial : state :=
  mk "" [ABSENT; ABSENT; ABSENT; ABSENT; ABSENT] [].

(** [setGuessText(s)]: the input's [onChange], the "Use" button of a
    history row and a click on a candidate all call it. *)
Definition setGuessText (s : string) (st : state) : state :=
  mk s (feedbackBoxes st) (history st).

(** [applyGuess()]:
    [const guess = (guessText || "").trim().toLowerCase();
     if (!/^[a-z]{5}$/.test(guess)) { alert(...); return; }
     setHistory((h) => [{ guess, feedback: feedbackBoxes.slice() }, ...h]);
     setGuessText(""); setFeedbackBoxes([ABSENT, ABSENT, ABSENT, ABSENT, ABSENT]);]
    ([guessText] is a string, and the only falsy string is [""] itself, so
    [guessText || ""] is [guessText].) *)
Definition applyGuess (normalise : string → string) (st : state) : state :=
  let guess := normalise (guessText st) in
  if negb (validWord guess) then st
  else mk "" [ABSENT; ABSENT; ABSENT; ABSENT; ABSENT]
          (mkEntry guess (feedbackBoxes st) :: history st).

(** [undoLast()]: [setHistory((h) => (h.length > 0 ? h.slice(1) : h))] *)
Definition undoLast (st : state) : state :=
  mk (guessText st) (feedbackBoxes st)
     (if 0 <? length (history st) then drop 1 (history st) else history st).

(** [resetAll()]: [setHistory([])] *)
Definition resetAll (st : state) : state :=
  mk (guessText st) (feedbackBoxes st) [].

(** [setFeedbackAt(i, val)]: [const copy = fb.slice(); copy[i] = val;] on a
    cell of the array.  A write past the end would make the array longer,
    with holes; the selects that call the handler are made one per cell
    ([feedbackBoxes.map((v, i) => ...)]), and such a call has no value
    here. *)
Definition setFeedbackAt (i : nat) (val : Result) (st : state)
  : option state :=
  if i <? length (feedbackBoxes st)
  then Some (mk (guessText st) (<[i:=val]> (feedbackBoxes st)) (history st))
  else None.

(** What the user can do. *)
Inductive event : Type :=
  | TypeGuess (s : string)
  | SelectFeedback (i : nat) (val : Result)
  | Apply
  | Undo
  | Reset.

Definition handle (normalise : string → string) (st : state) (e : event)
  : option state :=
  match e with
  | TypeGuess s => Some (setGuessText s st)
  | SelectFeedback i val => setFeedbackAt i val st
  | Apply => Some (applyGuess normalise st)
  | Undo => Some (undoLast st)
  | Reset => Some (resetAll st)
  end.

(** A sequence of events from a state. *)
Fixpoint run (normalise : string → string) (st : state) (es : list event)
  : option state :=
  match es with
  | [] => Some st
  | e :: es' =>
      match handle normalise st e with
      | Some st' => run normalise st' es'
      | None => None
      end
  end.

End App.

(** What every state the user can reach satisfies: five feedback boxes,
    and in every history entry a guess that passed the test and a feedback
    of five cells. *)
Definition well_formed (st : App.state) : Prop :=
  length (App.feedbackBoxes st) = 5
  ∧ Forall (λ h, validWord (guess h) = true ∧ length (feedback h) = 5)
      (App.history st).

(** ** The loader *)

(** Puts a character in front of the first of the pieces. *)
Definition prepend (c : ascii) (pieces : list string) : list string :=
  match pieces with
  | [] => [String c ""]
  | piece :: rest => String c piece :: rest
  end.

(** [text.split(/\r?\n/)]: the pieces between the line ends, a line end
    being a line feed together with the carriage return in front of it
    when there is one. *)
Fixpoint splitLines (text : string) : list string :=
  match text with
  | EmptyString => [""]
  | String c rest =>
      if Ascii.eqb c "010" then "" :: splitLines rest
      else
        match rest with
        | String c' rest' =>
            if Ascii.eqb c "013" && Ascii.eqb c' "010"
            then "" :: splitLines rest'
            else prepend c (splitLines rest)
        | EmptyString => prepend c (splitLines rest)
        end
  end.

(** The loader on the text of the word file:
    [text.split(/\r?\n/).map((s) => s.trim().toLowerCase())
         .filter((s) => /^[a-z]{5}$/.test(s))]. *)
Definition loadText (normalise : string → string) (text : string)
  : list string :=
  List.filter validWord (normalise <$> splitLines text).

(** A line without a line feed and without a carriage return. *)
Definition plain_line (line : string) : Prop :=
  Forall (λ c, c ≠ "010"%char ∧ c ≠ "013"%char) (split line).

(** ** computeEntropyForGuess as the program computes it

    The numbers of the program are binary64 numbers: [counts[k] / n], the
    product and the running sum are rounded as the primitive floats are.
    [Math.log2] is a library function whose result the language leaves to
    the implementation, apart from special arguments ([Math.log2(1)] is
    [+0]); it is taken as a parameter. *)
Module Binary64.

(** A count or a length as a number (exact below 2^53). *)
Definition number (n : nat) : float :=
  PrimFloat.of_uint63 (Uint63.of_Z (Z.of_nat n)).

(** [const p = counts[k] / n; entropy += -p * Math.log2(p);] *)
Definition add_term (Math_log2 : float → float) (n : nat) (entropy : float)
    (kc : string * nat) : float :=
  let p := (number kc.2 / number n)%float in
  (entropy + (- p) * Math_log2 p)%float.

Definition computeEntropyForGuess (Math_log2 : float → float)
    (guess : string) (candidates : option (list string)) : float :=
  match candidates with
  | None => 0%float
  | Some cs =>
      if (length cs =? 0)%nat then 0%float
      else
        let counts := foldl (tally guess) [] cs in
        let n := length cs in
        foldl (add_term Math_log2 n) 0%float counts
  end.

End Binary64.

(** [Math.log2] at the three arguments that a guess with eleven different
    feedback patterns needs, each correctly rounded to binary64:
    [Math.log2(1)] is [+0], [Math.log2(11)] is [3.4594316186372973] and
    [Math.log2(1/11)], at the binary64 quotient [0.09090909090909091], is
    [-3.4594316186372973].  No other argument is looked up. *)
Definition Math_log2_at_eleven (x : float) : float :=
  if PrimFloat.eqb x 1 then 0%float
  else if PrimFloat.eqb x 11 then 0x1.bacea7c065d42p+1%float
  else if PrimFloat.eqb x 0x1.745d1745d1746p-4 then (-0x1.bacea7c065d42p+1)%float
  else PrimFloat.nan.

(** Eleven words that pass [/^[a-z]{5}$/] and get eleven different
    feedback patterns for the guess [aaaaa], the first of them. *)
Definition eleven_candidates : list string :=
  ["aaaaa"; "aaaab"; "aaaba"; "aabaa"; "abaaa"; "baaaa";
   "aaabb"; "aabab"; "abaab"; "baaab"; "aabba"].

(** ** The ranking effect, whatever number the entropy is

    The loop and the selection of the second effect with the entropy left
    open: [bitsOf g cands] stands for the finite number that
    [computeEntropyForGuess(g, cands)] returns. *)
Definition rankWith (bitsOf : string → list string → R)
    (cands : list string) : list Suggestion.t :=
  (λ g, Suggestion.mk g (bitsOf g cands)) <$> cands.

Definition topGuessesWith (bitsOf : string → list string → R)
    (words : list string) (history : list HistoryEntry)
  : list Suggestion.t :=
  let cands := filterCandidates (Some words) (Some history) in
  selectTop (rankWith bitsOf cands).

(** ** Sanity checks on concrete words *)

Example feedbackFor_sheep_speed :
  feedbackFor "sheep" "speed" = [CORRECT; ABSENT; CORRECT; CORRECT; PRESENT].
Proof. reflexivity. Qed.

Example feedbackFor_crane_slate :
  feedbackFor "crane" "slate" = [ABSENT; ABSENT; CORRECT; ABSENT; CORRECT].
Proof. reflexivity. Qed.

Example feedbackFor_eerie_speed :
  feedbackFor "eerie" "speed" = [PRESENT; PRESENT; ABSENT; ABSENT; ABSENT].
Proof. reflexivity. Qed.

Example feedbackKey_example :
  feedbackKey (feedbackFor "crane" "slate")
  = "ABSENT|ABSENT|CORRECT|ABSENT|CORRECT".
Proof. reflexivity. Qed.

Example filterCandidates_example :
  filterCandidates (Some ["crane"; "slate"; "trace"; "brake"])
    (Some [mkEntry "crane" [ABSENT; ABSENT; CORRECT; ABSENT; CORRECT]])
  = ["slate"].
Proof. reflexivity. Qed.

(** * Candidate filtering *)

Section Filter.

Implicit Types (ws : list string) (hs : list HistoryEntry) (c : string).

Lemma same_cells_lookup (expected actual : list Result) (idxs : list nat) :
  same_cells expected actual idxs = true
  ↔ ∀ i, i ∈ idxs → expected !! i = actual !! i.
Proof.
  induction idxs as [|i idxs IH]; simpl.
  - split; [intros _ i Hi; inversion Hi | done].
  - case_decide as Hi.
    + rewrite IH. split.
      * intros H j Hj. apply elem_of_cons in Hj as [->|Hj]; auto.
      * intros H j Hj. apply H. by right.
    + split; [done|]. intros H. destruct Hi. apply H. by left.
Qed.

(** The length test followed by the cell-by-cell loop is equality of the
    two arrays. *)
Lemma compare_arrays (expected actual : list Result) :
  negb (length expected =? length actual)%nat = false
  ∧ same_cells expected actual (seq 0 (length expected)) = true
  ↔ expected = actual.
Proof.
  rewrite negb_false_iff, Nat.eqb_eq, same_cells_lookup. split.
  - intros [Hlen H]. apply list_eq. intros i.
    destruct (decide (i < length expected)) as [Hi|Hi].
    + apply H, elem_of_seq. lia.
    + rewrite !lookup_ge_None_2; [done|lia..].
  - intros ->. done.
Qed.

Lemma consistent_Forall hs c :
  consistent hs c = true
  ↔ Forall (λ h, feedbackFor (guess h) c = feedback h) hs.
Proof.
  induction hs as [|h hs IH]; cbn [consistent].
  - split; [constructor | done].
  - rewrite Forall_cons, <- IH.
    pose proof (compare_arrays (feedback h) (feedbackFor (guess h) c)) as Hc.
    destruct (negb _); [|destruct (same_cells _ _ _)].
    + split; [done|]. intros [E _]. symmetry in E. apply Hc in E. by destruct E.
    + split; [intros ?; split; [symmetry; by apply Hc|done] | by intros []].
    + split; [done|]. intros [E _]. symmetry in E. apply Hc in E. by destruct E.
Qed.

(** The early returns of [filterCandidates] agree with the filter: on an
    empty array of words the filter is empty, on an empty history the
    callback accepts every word. *)
Lemma filterCandidates_filter ws hs :
  filterCandidates (Some ws) (Some hs) = List.filter (consistent hs) ws.
Proof.
  unfold filterCandidates.
  destruct ws as [|w ws]; [done|]. destruct hs as [|h hs]; [|done].
  change (length (w :: ws) =? 0)%nat with false. simpl.
  f_equal. induction ws as [|w' ws IH]; simpl; [done|]. by f_equal.
Qed.

Lemma elem_of_filterCandidates ws hs c :
  c ∈ filterCandidates (Some ws) (Some hs)
  ↔ c ∈ ws ∧ Forall (λ h, feedbackFor (guess h) c = feedback h) hs.
Proof.
  rewrite filterCandidates_filter, <- consistent_Forall.
  rewrite !list_elem_of_In, filter_In. done.
Qed.

Lemma consistent_app hs1 hs2 c :
  consistent (hs1 ++ hs2) c = consistent hs1 c && consistent hs2 c.
Proof.
  induction hs1 as [|h hs1 IH]; cbn [app consistent]; [done|].
  destruct (negb _); [done|]. by destruct (same_cells _ _ _).
Qed.

(** A longer history filters what the shorter one left. *)
Lemma filterCandidates_app ws hs1 hs2 :
  filterCandidates (Some ws) (Some (hs1 ++ hs2))
  = List.filter (consistent hs2) (filterCandidates (Some ws) (Some hs1)).
Proof.
  rewrite !filterCandidates_filter.
  induction ws as [|w ws IH]; simpl; [done|].
  rewrite consistent_app. destruct (consistent hs1 w); simpl.
  - destruct (consistent hs2 w); by rewrite IH.
  - done.
Qed.

End Filter.

(** C1. [filterCandidates] keeps a word [c] of the dictionary exactly when
    [feedbackFor g c] equals [f] for every entry [(g, f)] of the history;
    an empty dictionary gives an empty result and an empty history gives
    the whole dictionary. *)
Theorem filterCandidates_retains_iff
    (words : list string) (history : list HistoryEntry) (c : string) :
  (c ∈ filterCandidates (Some words) (Some history)
   ↔ c ∈ words
     ∧ ∀ h, h ∈ history → feedbackFor (guess h) c = feedback h)
  ∧ filterCandidates (Some []) (Some history) = []
  ∧ filterCandidates (Some words) (Some []) = words.
Proof.
  split; [|split].
  - rewrite elem_of_filterCandidates, Forall_forall. done.
  - done.
  - unfold filterCandidates. by destruct words.
Qed.

(** C5. Self-consistency: a word [w] of the dictionary survives the filter
    for the single entry made of a guess [g] and the feedback
    [feedbackFor g w] that [w] itself produces. *)
Theorem filterCandidates_self_consistent
    (words : list string) (w g : string) :
  w ∈ words →
  w ∈ filterCandidates (Some words) (Some [mkEntry g (feedbackFor g w)]).
Proof.
  intros Hw. apply elem_of_filterCandidates. split; [done|].
  by repeat constructor.
Qed.

Lemma filterCandidates_self_consistent_witness :
  "slate" ∈ ["crane"; "slate"; "trace"; "brake"]
  ∧ "slate" ∈ filterCandidates (Some ["crane"; "slate"; "trace"; "brake"])
                (Some [mkEntry "sheep" (feedbackFor "sheep" "slate")]).
Proof.
  assert (H : "slate" ∈ ["crane"; "slate"; "trace"; "brake"])
    by (apply list_elem_of_In; simpl; auto).
  split; [exact H|].
  exact (filterCandidates_self_consistent _ "slate" "sheep" H).
Defined.

(** C6. Monotonicity: every word kept for the history [h ++ [e]] is kept
    for the history [h]; one more entry never adds a candidate, and the
    result never gets longer. *)
Theorem filterCandidates_monotone
    (d : list string) (h : list HistoryEntry) (e : HistoryEntry) :
  filterCandidates (Some d) (Some (h ++ [e]))
  ⊆ filterCandidates (Some d) (Some h)
  ∧ length (filterCandidates (Some d) (Some (h ++ [e])))
    ≤ length (filterCandidates (Some d) (Some h)).
Proof.
  rewrite filterCandidates_app. split.
  - intros c. rewrite !list_elem_of_In, filter_In. by intros [? _].
  - apply filter_length_le.
Qed.

(** * The feedback loops and the two-pass algorithm *)

Section TwoPassRefinement.

Import Feedback TwoPass.

Implicit Types (g a : list ascii) (res : list Result) (used : list bool).

(** The inner loop from index [j0] on finds what [first_unconsumed] finds
    in the rest of the answer. *)
Lemma scan_first_unconsumed g a i x res used m j0 :
  g !! i = Some x →
  length a = j0 + m → length used = j0 + m →
  scan g a i (seq j0 m) (res, used)
  = match first_unconsumed x (drop j0 a) (drop j0 used) with
    | Some j => (<[i:=PRESENT]> res, <[j0 + j:=true]> used)
    | None => (res, used)
    end.
Proof.
  intros Hx. revert j0. induction m as [|m IH]; intros j0 Ha Hu.
  - rewrite drop_ge by lia. done.
  - destruct (lookup_lt_is_Some_2 a j0) as [y Hy]; [lia|].
    destruct (lookup_lt_is_Some_2 used j0) as [c Hc]; [lia|].
    rewrite (drop_S _ _ _ Hy), (drop_S _ _ _ Hc). simpl.
    rewrite Hc, Hx, Hy. simpl.
    specialize (IH (S j0) ltac:(lia) ltac:(lia)).
    destruct c; simpl.
    + rewrite IH. destruct (first_unconsumed _ _ _); simpl; [|done].
      by rewrite Nat.add_succ_r.
    + case_decide as E; case_bool_decide as E'; simplify_eq.
      * by rewrite Nat.add_0_r.
      * rewrite IH. destruct (first_unconsumed _ _ _); simpl; [|done].
        by rewrite Nat.add_succ_r.
Qed.

Lemma first_unconsumed_Some x a used j :
  first_unconsumed x a used = Some j →
  a !! j = Some x ∧ used !! j = Some false.
Proof.
  revert used j. induction a as [|y a IH]; intros [|c used] j; simpl; try done.
  destruct c; simpl.
  - destruct (first_unconsumed x a used) eqn:E; simpl; [|done].
    intros [= <-]. simpl. by apply IH.
  - case_bool_decide as E'; simpl.
    + intros [= <-]. by subst.
    + destruct (first_unconsumed x a used) eqn:E; simpl; [|done].
      intros [= <-]. simpl. by apply IH.
Qed.

End TwoPassRefinement.

Section TwoPassLoops.

Import Feedback TwoPass.

Implicit Types (g a : list ascii) (res : list Result) (used : list bool).

Lemma split_length (s : string) : length (split s) = String.length s.
Proof. unfold split. induction s; simpl; [done|by f_equal]. Qed.

Lemma pass1_marks g a i r :
  (pass1 g a).1 !! i = Some r → r = CORRECT ∨ r = ABSENT.
Proof.
  simpl. rewrite lookup_zip_with_Some. intros (x & y & -> & _).
  case_decide; auto.
Qed.

(** After [k] rounds of the first loop the first [k] cells hold the marks
    of pass 1 and the other cells are untouched. *)
Lemma pass1_loop g a n k :
  length g = n → length a = n → k ≤ n →
  foldl (pass1_step g a) (replicate n ABSENT, replicate n false) (seq 0 k)
  = (take k (pass1 g a).1 ++ replicate (n - k) ABSENT,
     take k (pass1 g a).2 ++ replicate (n - k) false).
Proof.
  intros Hg Ha. induction k as [|k IH]; intros Hk.
  - simpl. by rewrite Nat.sub_0_r.
  - rewrite seq_S, foldl_app, IH by lia. simpl.
    destruct (lookup_lt_is_Some_2 g k) as [x Hx]; [lia|].
    destruct (lookup_lt_is_Some_2 a k) as [y Hy]; [lia|].
    assert (H1 : zip_with (λ x y, if decide (x = y) then CORRECT else ABSENT)
                   g a !! k = Some (if decide (x = y) then CORRECT else ABSENT))
      by (rewrite lookup_zip_with, Hx, Hy; done).
    assert (H2 : zip_with (λ x y, bool_decide (x = y)) g a !! k
                 = Some (bool_decide (x = y)))
      by (rewrite lookup_zip_with, Hx, Hy; done).
    rewrite (take_S_r _ _ _ H1), (take_S_r _ _ _ H2), <- !app_assoc.
    replace (n - k) with (S (n - S k)) by lia. simpl.
    unfold pass1_step. rewrite Hx, Hy. simpl.
    assert (Hl1 : length (take k (zip_with
              (λ x y, if decide (x = y) then CORRECT else ABSENT) g a)) = k)
      by (rewrite length_take, length_zip_with; lia).
    assert (Hl2 : length (take k (zip_with (λ x y, bool_decide (x = y)) g a))
                  = k)
      by (rewrite length_take, length_zip_with; lia).
    case_decide as E; simplify_eq.
    + rewrite !insert_app_r_alt by lia. rewrite Hl1, Hl2, Nat.sub_diag. simpl.
      rewrite decide_True, bool_decide_eq_true_2 by done. done.
    + rewrite decide_False, bool_decide_eq_false_2 by congruence. done.
Qed.

(** The second loop from index [k] on, started on marks that are still
    those of pass 1 from [k] on, computes [pass2] of the remaining
    positions. *)
Lemma pass2_loop g a n m : ∀ k res used,
  length g = n → length a = n → k + m = n →
  length res = n → length used = n →
  (∀ i r, k ≤ i → res !! i = Some r → r = CORRECT ∨ r = ABSENT) →
  (foldl (pass2_step n g a) (res, used) (seq k m)).1
  = take k res ++ pass2 (zip (drop k g) (drop k res)) a used.
Proof.
  induction m as [|m IH]; intros k res used Hg Ha Hk Hres Hused Hmarks.
  - simpl. rewrite !drop_ge, take_ge by lia. simpl. by rewrite app_nil_r.
  - destruct (lookup_lt_is_Some_2 g k) as [x Hx]; [lia|].
    destruct (lookup_lt_is_Some_2 res k) as [r Hr]; [lia|].
    rewrite (drop_S _ _ _ Hx), (drop_S _ _ _ Hr). simpl.
    unfold pass2_step at 2. simpl. rewrite Hr.
    destruct (Hmarks k r) as [-> | ->]; [lia|done|..].
    + rewrite decide_True by done.
      rewrite IH; [|done|done|lia|done|done|intros i' r' ? ?; apply (Hmarks i' r'); [lia|done]].
      rewrite (take_S_r _ _ _ Hr), <- app_assoc. done.
    + rewrite decide_False by done.
      rewrite (scan_first_unconsumed g a k x res used n 0) by done.
      rewrite !drop_0.
      destruct (first_unconsumed x a used) as [j|] eqn:Ej.
      * rewrite IH; [|done|done|lia|by rewrite length_insert..|].
        -- rewrite (take_S_r _ _ PRESENT)
             by (apply list_lookup_insert_eq; lia).
           rewrite take_insert_ge, drop_insert_lt, <- app_assoc by lia. done.
        -- intros i r Hi. rewrite list_lookup_insert_ne by lia.
           apply Hmarks. lia.
      * rewrite IH;
          [|done|done|lia|done|done|intros i' r' ? ?; apply (Hmarks i' r'); [lia|done]].
        rewrite (take_S_r _ _ _ Hr), <- app_assoc. done.
Qed.

(** The two loops on arrays of [n] cells compute the two passes on words
    of [n] letters. *)
Lemma run_two_pass g a n :
  length g = n → length a = n →
  (run n g a).1 = pass2 (zip g (pass1 g a).1) a (pass1 g a).2.
Proof.
  intros Hg Ha. unfold run.
  assert (Hl1 : length (pass1 g a).1 = n)
    by (simpl; rewrite length_zip_with; lia).
  assert (Hl2 : length (pass1 g a).2 = n)
    by (simpl; rewrite length_zip_with; lia).
  rewrite (pass1_loop g a n n) by done.
  rewrite Nat.sub_diag, !take_ge, !app_nil_r by lia.
  rewrite (pass2_loop g a n n 0) by (try done; intros; by eapply pass1_marks).
  by rewrite !drop_0.
Qed.

Lemma feedbackFor_classify (guess answer : string) :
  String.length guess = 5 → String.length answer = 5 →
  feedbackFor guess answer = classify guess answer.
Proof.
  intros Hg Ha. unfold feedbackFor, classify.
  apply run_two_pass; by rewrite split_length.
Qed.

End TwoPassLoops.

(** C2. On two 5-letter words [feedbackFor] is the two-pass algorithm:
    pass 1 marks [CORRECT] and consumes every position where the guess and
    the answer agree; pass 2 then gives each other guess position, from
    left to right, [PRESENT] while consuming the first unconsumed answer
    position that holds its letter, or [ABSENT] when there is none. *)
Theorem feedbackFor_two_pass (guess answer : string) :
  String.length guess = 5 → String.length answer = 5 →
  feedbackFor guess answer = TwoPass.classify guess answer.
Proof. apply feedbackFor_classify. Qed.

Lemma feedbackFor_two_pass_witness :
  String.length "sheep" = 5 ∧ String.length "speed" = 5
  ∧ feedbackFor "sheep" "speed" = TwoPass.classify "sheep" "speed".
Proof.
  split; [reflexivity|]. split; [reflexivity|].
  apply (feedbackFor_two_pass "sheep" "speed"); reflexivity.
Defined.

(** * Duplicate letters *)

Section Multiplicity.

Import TwoPass.

Implicit Types (g a : list ascii) (used : list bool) (x y : ascii).
Implicit Types (ms : list (ascii * Result)) (fb : list Result).

Lemma marks_at_cons x y g r fb :
  marks_at x (y :: g) (r :: fb)
  = if decide (y = x) then r :: marks_at x g fb else marks_at x g fb.
Proof.
  unfold marks_at. simpl. rewrite filter_cons. simpl. by case_decide.
Qed.

Lemma free_cons x y a c used :
  free x (y :: a) (c :: used)
  = (if decide (y = x ∧ c = false) then 1 else 0) + free x a used.
Proof.
  unfold free. simpl. rewrite filter_cons. simpl. by case_decide.
Qed.

Lemma occurrences_cons x y g :
  occurrences x (y :: g) = (if decide (y = x) then 1 else 0) + occurrences x g.
Proof. unfold occurrences. rewrite filter_cons. by case_decide. Qed.

Lemma first_unconsumed_None x a used :
  first_unconsumed x a used = None → free x a used = 0.
Proof.
  revert used. induction a as [|y a IH]; intros [|c used]; simpl; try done.
  rewrite free_cons. destruct c; simpl.
  - destruct (first_unconsumed x a used) eqn:E; simpl; [done|].
    intros _. rewrite decide_False by (by intros []). by rewrite IH.
  - case_bool_decide as E'; simpl; [done|].
    destruct (first_unconsumed x a used) eqn:E; simpl; [done|].
    intros _. rewrite decide_False by (intros []; congruence). by rewrite IH.
Qed.

(** Consuming an unconsumed position that holds [y] takes one free
    position away from [y] and none from any other letter. *)
Lemma free_consume x y a used j :
  a !! j = Some y → used !! j = Some false →
  free x a used
  = (if decide (y = x) then 1 else 0) + free x a (<[j:=true]> used).
Proof.
  revert used j. induction a as [|z a IH]; intros [|c used] [|j]; simpl;
    try done.
  - intros [= ->] [= ->]. rewrite !free_cons.
    rewrite (decide_False (P := _ ∧ true = false)) by (by intros []).
    destruct (decide (y = x)) as [E|E];
      [rewrite decide_True by done | rewrite decide_False by (by intros [])];
      done.
  - intros Ha Hu. rewrite !free_cons. rewrite (IH _ _ Ha Hu). lia.
Qed.

Lemma filter_ne_cons (r0 r : Result) (l : list Result) :
  length (filter (λ r', r' ≠ r0) (r :: l))
  = (if decide (r = r0) then 0 else 1) + length (filter (λ r', r' ≠ r0) l).
Proof.
  rewrite filter_cons. destruct (decide (r = r0)) as [E|E].
  - by rewrite decide_False by (intros ?; done).
  - by rewrite decide_True by done.
Qed.

Lemma filter_eq_cons (r0 r : Result) (l : list Result) :
  length (filter (λ r', r' = r0) (r :: l))
  = (if decide (r = r0) then 1 else 0) + length (filter (λ r', r' = r0) l).
Proof. rewrite filter_cons. by case_decide. Qed.

(** Pass 2 gives a mark other than [ABSENT] to the [CORRECT] occurrences
    of [x] and to as many of the other occurrences as there are free
    positions holding [x] in the answer. *)
Lemma pass2_marked x ms a used :
  length (filter (λ r, r ≠ ABSENT) (marks_at x ms.*1 (pass2 ms a used)))
  = length (filter (λ r, r = CORRECT) (marks_at x ms.*1 ms.*2))
    + length (filter (λ r, r ≠ CORRECT) (marks_at x ms.*1 ms.*2))
      `min` free x a used.
Proof.
  revert used. induction ms as [|[y r] ms IH]; intros used; [done|].
  assert (Hother : r ≠ CORRECT →
    length (filter (λ r, r ≠ ABSENT)
              (marks_at x ((y, r) :: ms).*1 (pass2 ((y, r) :: ms) a used)))
    = length (filter (λ r, r = CORRECT) (marks_at x ms.*1 ms.*2))
      + ((if decide (y = x) then 1 else 0)
         + length (filter (λ r, r ≠ CORRECT) (marks_at x ms.*1 ms.*2)))
        `min` free x a used).
  { intros Hr.
    assert (pass2 ((y, r) :: ms) a used
            = match first_unconsumed y a used with
              | Some j => PRESENT :: pass2 ms a (<[j:=true]> used)
              | None => ABSENT :: pass2 ms a used
              end) as -> by (by destruct r).
    destruct (first_unconsumed y a used) as [j|] eqn:Ej.
    - apply first_unconsumed_Some in Ej as [Ha Hu].
      rewrite (free_consume x y a used j Ha Hu).
      cbn [fmap list_fmap fst]. rewrite marks_at_cons.
      case_decide; [rewrite filter_ne_cons, decide_False by done|];
        rewrite IH; lia.
    - cbn [fmap list_fmap fst]. rewrite marks_at_cons.
      case_decide as E; [rewrite filter_ne_cons, decide_True by done|];
        rewrite IH; [|lia].
      subst y. rewrite (first_unconsumed_None _ _ _ Ej). lia. }
  destruct (decide (r = CORRECT)) as [->|Hr].
  - cbn [fmap list_fmap fst snd pass2]. rewrite !marks_at_cons.
    case_decide; [|by rewrite IH].
    rewrite filter_ne_cons, filter_eq_cons, filter_ne_cons, IH.
    rewrite decide_False, decide_True by done. simpl. lia.
  - rewrite (Hother Hr). cbn [fmap list_fmap fst snd].
    rewrite !marks_at_cons. case_decide; [|done].
    rewrite filter_eq_cons, filter_ne_cons.
    rewrite !decide_False by done. simpl. lia.
Qed.

(** What pass 1 leaves: the occurrences of [x] that it marked [CORRECT],
    with the other occurrences in the guess, and with the free positions
    in the answer. *)
Lemma pass1_counts x g a :
  length g = length a →
  length (filter (λ r, r = CORRECT) (marks_at x g (pass1 g a).1))
  + length (filter (λ r, r ≠ CORRECT) (marks_at x g (pass1 g a).1))
  = occurrences x g
  ∧ length (filter (λ r, r = CORRECT) (marks_at x g (pass1 g a).1))
    + free x a (pass1 g a).2
    = occurrences x a.
Proof.
  revert a. induction g as [|y g IH]; intros [|b a] Hlen; try done.
  simpl in Hlen. destruct (IH a ltac:(lia)) as [IH1 IH2]. clear IH.
  simpl in *. rewrite marks_at_cons, free_cons, !occurrences_cons.
  rewrite <- IH1, <- IH2.
  destruct (decide (y = x)) as [->|Hy].
  - rewrite filter_eq_cons, filter_ne_cons.
    destruct (decide (x = b)) as [<-|Hb].
    + rewrite !(decide_True (P := x = x)) by done.
      rewrite !(decide_True (P := CORRECT = CORRECT)) by done.
      rewrite decide_False by (intros [_ E]; by case_bool_decide).
      lia.
    + rewrite !(decide_False (P := ABSENT = CORRECT)) by done.
      rewrite (decide_False (P := b = x)) by done.
      rewrite decide_False by (intros [? _]; congruence). lia.
  - destruct (decide (b = x)) as [->|Hb].
    + rewrite decide_True; [lia|]. split; [done|].
      by rewrite bool_decide_eq_false_2.
    + rewrite decide_False by (by intros []). lia.
Qed.

(** The multiplicity rule of the two passes: among the occurrences of a
    letter in the guess, as many get a mark other than [ABSENT] as the
    answer has occurrences of that letter, or all of them when the answer
    has more. *)
Lemma classify_multiplicity x (guess answer : string) :
  String.length guess = String.length answer →
  length (filter (λ r, r ≠ ABSENT)
            (marks_at x (split guess) (classify guess answer)))
  = occurrences x (split guess) `min` occurrences x (split answer).
Proof.
  intros Hlen. unfold classify. rewrite <- !split_length in Hlen.
  set (g := split guess) in *. set (a := split answer) in *.
  assert (Hl : length (pass1 g a).1 = length g)
    by (simpl; rewrite length_zip_with; lia).
  pose proof (pass2_marked x (zip g (pass1 g a).1) a (pass1 g a).2) as H.
  rewrite fst_zip, snd_zip in H by lia. rewrite H.
  destruct (pass1_counts x g a Hlen) as [H1 H2]. lia.
Qed.

(** The same rule for [feedbackFor] on two 5-letter words. *)
Lemma feedbackFor_multiplicity x (guess answer : string) :
  String.length guess = 5 → String.length answer = 5 →
  length (filter (λ r, r ≠ ABSENT)
            (marks_at x (split guess) (feedbackFor guess answer)))
  = occurrences x (split guess) `min` occurrences x (split answer).
Proof.
  intros Hg Ha. rewrite (feedbackFor_classify guess answer Hg Ha).
  apply classify_multiplicity. congruence.
Qed.

Lemma pass2_length ms a used : length (pass2 ms a used) = length ms.
Proof.
  revert used. induction ms as [|[y r] ms IH]; intros used; [done|].
  destruct r; simpl; try destruct (first_unconsumed y a used); simpl;
    by rewrite IH.
Qed.

(** Pass 2 keeps the [CORRECT] marks of pass 1 and adds none. *)
Lemma pass2_CORRECT ms a used p :
  pass2 ms a used !! p = Some CORRECT ↔ ms.*2 !! p = Some CORRECT.
Proof.
  revert used p. induction ms as [|[y r] ms IH]; intros used p; [done|].
  destruct r; simpl; try destruct (first_unconsumed y a used); simpl;
    destruct p as [|p]; simpl; try done; apply IH.
Qed.

Lemma classify_length (guess answer : string) :
  String.length guess = String.length answer →
  length (classify guess answer) = String.length guess.
Proof.
  intros Hlen. unfold classify. rewrite <- !split_length in *.
  rewrite pass2_length, length_zip. simpl. rewrite length_zip_with. lia.
Qed.

Lemma classify_CORRECT (guess answer : string) p :
  String.length guess = String.length answer → p < String.length guess →
  classify guess answer !! p = Some CORRECT
  ↔ split guess !! p = split answer !! p.
Proof.
  intros Hlen Hp. unfold classify. rewrite <- !split_length in *.
  set (g := split guess) in *. set (a := split answer) in *.
  rewrite pass2_CORRECT, snd_zip by (simpl; rewrite length_zip_with; lia).
  destruct (lookup_lt_is_Some_2 g p) as [y Hy]; [lia|].
  destruct (lookup_lt_is_Some_2 a p) as [b Hb]; [lia|].
  simpl. rewrite lookup_zip_with, Hy, Hb. simpl.
  case_decide; split; intros; simplify_eq; done.
Qed.

(** The marks of the occurrences of [x], read off by position. *)
Lemma marks_at_none x g fb :
  occurrences x g = 0 → marks_at x g fb = [].
Proof.
  revert fb. induction g as [|y g IH]; intros [|r fb]; try done.
  rewrite occurrences_cons, marks_at_cons.
  case_decide; [done|]. intros. apply IH. lia.
Qed.

Lemma occurrences_lookup x g p :
  g !! p = Some x → 0 < occurrences x g.
Proof.
  revert p. induction g as [|y g IH]; intros [|p]; simpl; try done;
    rewrite occurrences_cons.
  - intros [= ->]. rewrite decide_True by done. lia.
  - intros H. apply IH in H. lia.
Qed.

Lemma occurrences_two_positions x g i j :
  i < j → g !! i = Some x → g !! j = Some x → 2 ≤ occurrences x g.
Proof.
  revert i j. induction g as [|y g IH]; intros i j Hij Hi Hj; [done|].
  rewrite occurrences_cons. destruct j as [|j]; [lia|].
  destruct i as [|i]; simpl in *.
  - simplify_eq. rewrite decide_True by done.
    apply occurrences_lookup in Hj. lia.
  - pose proof (IH i j ltac:(lia) Hi Hj). lia.
Qed.

Lemma marks_at_one x g fb j :
  length g = length fb → occurrences x g = 1 → g !! j = Some x →
  ∃ rj, fb !! j = Some rj ∧ marks_at x g fb = [rj].
Proof.
  revert fb j. induction g as [|y g IH]; intros [|r fb] j; try done.
  rewrite occurrences_cons, marks_at_cons. simpl. intros Hlen Hocc Hj.
  destruct j as [|j]; simpl in *.
  - simplify_eq. rewrite decide_True by done.
    rewrite decide_True in Hocc by done.
    exists r. split; [done|]. rewrite marks_at_none; [done|lia].
  - pose proof (occurrences_lookup _ _ _ Hj).
    case_decide; [lia|]. apply IH; [lia|done..].
Qed.

Lemma marks_at_two x g fb i j :
  length g = length fb → occurrences x g = 2 →
  i < j → g !! i = Some x → g !! j = Some x →
  ∃ ri rj, fb !! i = Some ri ∧ fb !! j = Some rj
           ∧ marks_at x g fb = [ri; rj].
Proof.
  revert fb i j. induction g as [|y g IH]; intros [|r fb] i j; try done.
  rewrite occurrences_cons, marks_at_cons. simpl.
  intros Hlen Hocc Hij Hi Hj.
  destruct j as [|j]; [lia|]. destruct i as [|i]; simpl in *.
  - simplify_eq. rewrite decide_True by done.
    rewrite decide_True in Hocc by done.
    destruct (marks_at_one x g fb j) as (rj & ? & ->); [lia|lia|done|].
    by exists r, rj.
  - case_decide.
    + pose proof (occurrences_two_positions x g i j ltac:(lia) Hi Hj). lia.
    + destruct (IH fb i j) as (ri & rj & ? & ? & ?); [lia|lia|lia|done..|].
      by exists ri, rj.
Qed.

End Multiplicity.

(** C3. A guess with two occurrences of a letter, at positions [i < j],
    against an answer with exactly one occurrence of that letter: one of
    the two positions is marked [PRESENT] or [CORRECT] and the other one
    [ABSENT], so never both [PRESENT]; the mark is [CORRECT] exactly at a
    position where the answer holds the letter too. *)
Theorem feedbackFor_duplicate_letter
    (guess answer : string) (x : ascii) (i j : nat) :
  String.length guess = 5 → String.length answer = 5 →
  occurrences x (split guess) = 2 → occurrences x (split answer) = 1 →
  i < j → split guess !! i = Some x → split guess !! j = Some x →
  ∃ ri rj,
    feedbackFor guess answer !! i = Some ri
    ∧ feedbackFor guess answer !! j = Some rj
    ∧ (((ri = PRESENT ∨ ri = CORRECT) ∧ rj = ABSENT)
       ∨ (ri = ABSENT ∧ (rj = PRESENT ∨ rj = CORRECT)))
    ∧ ¬ (ri = PRESENT ∧ rj = PRESENT)
    ∧ (ri = CORRECT ↔ split answer !! i = Some x)
    ∧ (rj = CORRECT ↔ split answer !! j = Some x).
Proof.
  intros Hg Ha Hog Hoa Hij Hi Hj.
  rewrite (feedbackFor_classify guess answer Hg Ha).
  assert (Hlen : String.length guess = String.length answer) by congruence.
  pose proof (classify_length guess answer Hlen) as Hfb.
  pose proof (classify_multiplicity x guess answer Hlen) as Hm.
  rewrite Hog, Hoa in Hm.
  destruct (marks_at_two x (split guess) (TwoPass.classify guess answer) i j)
    as (ri & rj & Hri & Hrj & Hmarks);
    [by rewrite split_length, Hfb|done..|].
  rewrite Hmarks in Hm.
  assert (Hcj := classify_CORRECT guess answer j Hlen).
  assert (Hci := classify_CORRECT guess answer i Hlen).
  pose proof (lookup_lt_Some _ _ _ Hj) as Hjlt. rewrite split_length in Hjlt.
  rewrite Hri, Hi in Hci. rewrite Hrj, Hj in Hcj.
  exists ri, rj. split; [done|]. split; [done|].
  split; [|split; [|split]].
  - destruct ri, rj; vm_compute in Hm; try done; auto.
  - intros [-> ->]. vm_compute in Hm. done.
  - specialize (Hci ltac:(lia)). split.
    + intros ->. symmetry. by apply Hci.
    + intros E. symmetry in E. apply Hci in E. by simplify_eq.
  - specialize (Hcj ltac:(lia)). split.
    + intros ->. symmetry. by apply Hcj.
    + intros E. symmetry in E. apply Hcj in E. by simplify_eq.
Qed.

Lemma feedbackFor_duplicate_letter_witness :
  (String.length "sheep" = 5 ∧ String.length "crane" = 5
   ∧ occurrences "e" (split "sheep") = 2
   ∧ occurrences "e" (split "crane") = 1
   ∧ 2 < 3
   ∧ split "sheep" !! 2 = Some "e"%char
   ∧ split "sheep" !! 3 = Some "e"%char)
  ∧ ∃ ri rj,
      feedbackFor "sheep" "crane" !! 2 = Some ri
      ∧ feedbackFor "sheep" "crane" !! 3 = Some rj
      ∧ (((ri = PRESENT ∨ ri = CORRECT) ∧ rj = ABSENT)
         ∨ (ri = ABSENT ∧ (rj = PRESENT ∨ rj = CORRECT)))
      ∧ ¬ (ri = PRESENT ∧ rj = PRESENT)
      ∧ (ri = CORRECT ↔ split "crane" !! 2 = Some "e"%char)
      ∧ (rj = CORRECT ↔ split "crane" !! 3 = Some "e"%char).
Proof.
  split; [repeat split; (reflexivity || lia)|].
  apply (feedbackFor_duplicate_letter "sheep" "crane" "e"%char 2 3);
    (reflexivity || lia).
Defined.

(** * Entropy *)

Section Entropy.

Implicit Types (counts : Counts.t) (key guess : string) (n c : nat).

(** One round of the counting loop adds one to the sum of the counts and
    keeps every count positive. *)
Lemma total_cons key c counts :
  total ((key, c) :: counts) = c + total counts.
Proof. reflexivity. Qed.

Lemma counts_bump key counts :
  Forall (λ kc, 1 ≤ kc.2) counts →
  Forall (λ kc, 1 ≤ kc.2)
    (Counts.set key (or_zero (Counts.get key counts) + 1) counts)
  ∧ total (Counts.set key (or_zero (Counts.get key counts) + 1) counts)
    = total counts + 1.
Proof.
  induction counts as [|[k c] counts IH]; intros Hpos.
  - split; [repeat constructor; simpl; lia | done].
  - apply Forall_cons in Hpos as [Hc Hpos]. simpl in Hc.
    destruct (IH Hpos) as [IH1 IH2].
    cbn [Counts.get Counts.set]. case_decide.
    + destruct c as [|c]; [lia|]. cbn [or_zero].
      split; [constructor; [simpl; lia | done]|].
      rewrite !total_cons. lia.
    + split; [by constructor|]. rewrite !total_cons, IH2. lia.
Qed.

Lemma tally_loop guess (cs : list string) : ∀ counts,
  Forall (λ kc, 1 ≤ kc.2) counts →
  Forall (λ kc, 1 ≤ kc.2) (foldl (tally guess) counts cs)
  ∧ total (foldl (tally guess) counts cs) = total counts + length cs.
Proof.
  induction cs as [|ans cs IH]; intros counts Hpos; simpl.
  - split; [done | lia].
  - destruct (counts_bump (feedbackKey (feedbackFor guess ans)) counts Hpos)
      as [H1 H2].
    destruct (IH _ H1) as [H3 H4]. split; [done|].
    unfold tally at 2. rewrite H4, H2. lia.
Qed.

Lemma count_le_total counts :
  Forall (λ kc, kc.2 ≤ total counts) counts.
Proof.
  induction counts as [|[k c] counts IH]; [constructor|].
  constructor; [rewrite total_cons; simpl; lia|].
  eapply Forall_impl; [exact IH|].
  intros kc Hkc. rewrite total_cons. simpl in Hkc. lia.
Qed.

Lemma ln_INR_nonneg c : 1 ≤ c → (0 <= ln (INR c))%R.
Proof.
  intros Hc. destruct (decide (c = 1)) as [->|Hne].
  - rewrite INR_1, ln_1. lra.
  - left. rewrite <- ln_1. apply ln_increasing; [lra|].
    rewrite <- INR_1. apply lt_INR. lia.
Qed.

Lemma ln_INR_le c n : 1 ≤ c → c ≤ n → (ln (INR c) <= ln (INR n))%R.
Proof.
  intros Hc Hn. destruct (decide (c = n)) as [->|Hne]; [lra|].
  left. apply ln_increasing; [apply lt_0_INR; lia | apply lt_INR; lia].
Qed.

(** One term of the sum, for a count [c] out of [n]. *)
Lemma term_bounds c n :
  1 ≤ c → c ≤ n →
  (0 <= - (INR c / INR n) * log2 (INR c / INR n)
     <= INR c / INR n * log2 (INR n))%R.
Proof.
  intros Hc Hn. unfold log2, Rdiv.
  assert (HC : (0 < INR c)%R) by (apply lt_0_INR; lia).
  assert (HN : (0 < INR n)%R) by (apply lt_0_INR; lia).
  assert (HiN : (0 < / INR n)%R) by (by apply Rinv_0_lt_compat).
  rewrite ln_mult, ln_Rinv by done.
  pose proof (ln_INR_nonneg c Hc) as H0.
  pose proof (ln_INR_le c n Hc Hn) as H1.
  pose proof ln_lt_2 as H2.
  assert (Hi2 : (0 < / ln 2)%R) by (apply Rinv_0_lt_compat; lra).
  assert (Hp : (0 < INR c * / INR n)%R) by (by apply Rmult_lt_0_compat).
  set (p := (INR c * / INR n)%R) in *. set (q := (/ ln 2)%R) in *.
  set (lc := ln (INR c)) in *. set (ln_n := ln (INR n)) in *.
  assert (Hpq : (0 < p * q)%R) by (by apply Rmult_lt_0_compat).
  split.
  - replace (- p * ((lc + - ln_n) * q))%R with ((p * q) * (ln_n - lc))%R
      by ring.
    apply Rmult_le_pos; lra.
  - replace (- p * ((lc + - ln_n) * q))%R with ((p * q) * (ln_n - lc))%R
      by ring.
    replace (p * (ln_n * q))%R with ((p * q) * ln_n)%R by ring.
    apply Rmult_le_compat_l; lra.
Qed.

(** The summing loop adds, to what it starts from, a non-negative amount
    that is at most the share of the summed counts in [log2 n]. *)
Lemma entropy_loop_bounds n counts : ∀ acc : R,
  Forall (λ kc, 1 ≤ kc.2 ∧ kc.2 ≤ n) counts →
  (acc <= foldl (add_term n) acc counts
       <= acc + INR (total counts) / INR n * log2 (INR n))%R.
Proof.
  induction counts as [|[k c] counts IH]; intros acc Hb.
  - unfold total. simpl. unfold Rdiv. rewrite !Rmult_0_l. lra.
  - apply Forall_cons in Hb as [[Hc Hn] Hb]. simpl in Hc, Hn.
    specialize (IH (add_term n acc (k, c)) Hb).
    pose proof (term_bounds c n Hc Hn) as Ht.
    change (foldl (add_term n) acc ((k, c) :: counts))
      with (foldl (add_term n) (add_term n acc (k, c)) counts).
    replace (total ((k, c) :: counts)) with (c + total counts) by done.
    rewrite plus_INR. unfold add_term in *. simpl in *.
    unfold Rdiv in *.
    set (t := (- (INR c * / INR n) * log2 (INR c * / INR n))%R) in *.
    lra.
Qed.


End Entropy.

Section Binary64Facts.

Variable Math_log2 : float → float.


End Binary64Facts.




(** C10. On a candidate array that is empty or absent
    ([null] or [undefined]) the entropy is [0] for every guess. *)
Theorem computeEntropyForGuess_empty (g : string) :
  computeEntropyForGuess g None = 0%R
  ∧ computeEntropyForGuess g (Some []) = 0%R.
Proof. split; reflexivity. Qed.

(** * The most likely candidate *)

Section MostLikely.

Lemma ascii_compare_refl (c : ascii) : Ascii.compare c c = Eq.
Proof. unfold Ascii.compare. apply N.compare_refl. Qed.

Lemma ascii_compare_Lt_trans (c1 c2 c3 : ascii) :
  Ascii.compare c1 c2 = Lt → Ascii.compare c2 c3 = Lt →
  Ascii.compare c1 c3 = Lt.
Proof.
  unfold Ascii.compare. rewrite !N.compare_lt_iff. apply N.lt_trans.
Qed.

Lemma lex_le_trans (s1 s2 s3 : string) :
  lex_le s1 s2 → lex_le s2 s3 → lex_le s1 s3.
Proof.
  unfold lex_le, String.leb. revert s2 s3.
  induction s1 as [|c1 s1 IH]; intros [|c2 s2] [|c3 s3]; simpl; try done.
  destruct (Ascii.compare c1 c2) eqn:E12; [| |done];
    destruct (Ascii.compare c2 c3) eqn:E23; try done.
  - apply Ascii.compare_eq_iff in E12, E23. subst.
    rewrite ascii_compare_refl. apply IH.
  - apply Ascii.compare_eq_iff in E12. subst. by rewrite E23.
  - apply Ascii.compare_eq_iff in E23. subst. by rewrite E12.
  - by rewrite (ascii_compare_Lt_trans _ _ _ E12 E23).
Qed.

Lemma lex_le_refl (s : string) : lex_le s s.
Proof.
  unfold lex_le, String.leb. induction s as [|c s IH]; simpl; [done|].
  by rewrite ascii_compare_refl.
Qed.

(** The head of a lexicographically sorted list is its first element in
    that order. *)
Lemma sorted_head_lex_first (c : string) (cs : list string) :
  Sorted lex_le (c :: cs) → lex_first c (c :: cs).
Proof.
  intros Hs. split; [by left|].
  apply Sorted_StronglySorted in Hs; [|intros ???; apply lex_le_trans].
  apply StronglySorted_inv in Hs as [_ Hall].
  intros w' Hw'. apply elem_of_cons in Hw' as [->|Hw'].
  - apply lex_le_refl.
  - rewrite List.Forall_forall in Hall. apply Hall. by apply list_elem_of_In.
Qed.

End MostLikely.

(** C8, as the specification states it, fails: on the candidates
    [slate, crane] the function returns [slate], and [crane] comes before
    it in lexicographic order. *)
Lemma mostLikelyCandidate_not_lex_first :
  mostLikelyCandidate (Some ["slate"; "crane"]) = Some "slate"
  ∧ ¬ (∃ w, mostLikelyCandidate (Some ["slate"; "crane"]) = Some w
            ∧ lex_first w ["slate"; "crane"]).
Proof.
  split; [reflexivity|]. intros (w & Hw & _ & Hfirst).
  injection Hw as <-.
  specialize (Hfirst "crane" ltac:(apply list_elem_of_In; simpl; auto)).
  unfold lex_le in Hfirst. vm_compute in Hfirst. discriminate.
Qed.

(** C8, amended. [mostLikelyCandidate] returns the element at index 0 of
    the candidate array, in the order the array has, and [null] when the
    array is empty or absent; that element is the lexicographically first
    one when the array is sorted in lexicographic order. *)
Theorem mostLikelyCandidate_first (candidates : list string) :
  mostLikelyCandidate (Some candidates) = head candidates
  ∧ mostLikelyCandidate (Some []) = None
  ∧ mostLikelyCandidate None = None
  ∧ (Sorted lex_le candidates →
     ∀ w, mostLikelyCandidate (Some candidates) = Some w →
          lex_first w candidates).
Proof.
  split; [by destruct candidates|]. split; [done|]. split; [done|].
  intros Hs w. destruct candidates as [|c cs]; [done|].
  intros [= <-]. by apply sorted_head_lex_first.
Qed.

Lemma mostLikelyCandidate_first_witness :
  Sorted lex_le ["crane"; "slate"]
  ∧ mostLikelyCandidate (Some ["crane"; "slate"]) = Some "crane"
  ∧ lex_first "crane" ["crane"; "slate"].
Proof.
  assert (Hs : Sorted lex_le ["crane"; "slate"])
    by (repeat constructor).
  split; [exact Hs|]. split; [reflexivity|].
  exact (proj2 (proj2 (proj2 (mostLikelyCandidate_first ["crane"; "slate"])))
           Hs "crane" eq_refl).
Defined.

(** * The selection step *)

Section Selection.

Import ArraySort.

Implicit Types (s x y : Suggestion.t) (l : list Suggestion.t) (b : R).

#[local] Abbreviation bits := Suggestion.bits.
#[local] Abbreviation sort_bits := (sort byBitsDescending).
#[local] Abbreviation insert_bits := (insert byBitsDescending).

Lemma insert_Permutation x l : Permutation (x :: l) (insert_bits x l).
Proof.
  induction l as [|y l IH]; simpl; [done|].
  destruct (Rlt_dec _ _); [|done].
  rewrite perm_swap. by apply perm_skip.
Qed.

Lemma sort_Permutation l : Permutation l (sort_bits l).
Proof.
  induction l as [|x l IH]; simpl; [done|].
  rewrite <- insert_Permutation. by apply perm_skip.
Qed.

Lemma insert_descending x l : descending l → descending (insert_bits x l).
Proof.
  unfold descending.
  induction l as [|y l IH]; intros Hs; simpl.
  - repeat constructor.
  - apply StronglySorted_inv in Hs as [Hl Hy].
    unfold byBitsDescending at 1. destruct (Rlt_dec _ _) as [Hlt|Hge].
    + constructor; [by apply IH|].
      rewrite <- insert_Permutation. constructor; [lra|done].
    + constructor; [by constructor|].
      constructor; [lra|].
      eapply List.Forall_impl; [|exact Hy]. simpl. intros s Hs. lra.
Qed.

Lemma sort_descending l : descending (sort_bits l).
Proof.
  induction l as [|x l IH]; simpl; [constructor|]. by apply insert_descending.
Qed.

Lemma with_bits_cons b x l :
  with_bits b (x :: l)
  = if decide (bits x = b) then x :: with_bits b l else with_bits b l.
Proof. unfold with_bits. rewrite filter_cons. by case_decide. Qed.

(** An inserted suggestion passes only suggestions with more bits: among
    the suggestions with its own bits it stays in front. *)
Lemma insert_with_bits b x l :
  with_bits b (insert_bits x l) = with_bits b (x :: l).
Proof.
  induction l as [|y l IH]; simpl; [done|].
  unfold byBitsDescending at 1. destruct (Rlt_dec _ _) as [Hlt|Hge]; [|done].
  rewrite (with_bits_cons b y), IH, !with_bits_cons.
  repeat case_decide; try done. lra.
Qed.

Lemma sort_with_bits b l : with_bits b (sort_bits l) = with_bits b l.
Proof.
  induction l as [|x l IH]; simpl; [done|].
  by rewrite insert_with_bits, !with_bits_cons, IH.
Qed.

End Selection.

(** C7, as the specification states it, fails: two suggestions with equal
    bits given as [slate, crane] come out as [slate, crane], not in
    lexicographic order, and the same two given as [crane, slate] come out
    in the other order. *)
Lemma selectTop_ties_not_lexicographic :
  let slate := Suggestion.mk "slate" 1 in
  let crane := Suggestion.mk "crane" 1 in
  selectTop [slate; crane] = [slate; crane]
  ∧ ¬ ties_lexicographic (selectTop [slate; crane])
  ∧ Permutation [slate; crane] [crane; slate]
  ∧ selectTop [crane; slate] ≠ selectTop [slate; crane].
Proof.
  intros slate crane.
  assert (H1 : selectTop [slate; crane] = [slate; crane]).
  { unfold selectTop. simpl. unfold byBitsDescending. simpl.
    destruct (Rlt_dec _ _); [lra|done]. }
  assert (H2 : selectTop [crane; slate] = [crane; slate]).
  { unfold selectTop. simpl. unfold byBitsDescending. simpl.
    destruct (Rlt_dec _ _); [lra|done]. }
  split; [done|]. split; [|split].
  - rewrite H1. intros Hties.
    specialize (Hties 0 1 slate crane ltac:(lia) eq_refl eq_refl eq_refl).
    unfold lex_le in Hties. vm_compute in Hties. discriminate.
  - apply perm_swap.
  - rewrite H1, H2. intros [=].
Qed.

(** C7, amended. The selection step sorts descending by bits and keeps
    suggestions with equal bits in the order they came in (the sort is
    stable and the comparator looks at the bits only): its output is a
    permutation of its input, descending by bits, in which the suggestions
    with any given bits stand in their input order, cut to the first 10. *)
Theorem selectTop_stable_descending (ent : list Suggestion.t) :
  let sorted := ArraySort.sort byBitsDescending ent in
  selectTop ent = take 10 sorted
  ∧ Permutation ent sorted
  ∧ descending sorted
  ∧ ∀ b, with_bits b sorted = with_bits b ent.
Proof.
  intros sorted. split; [done|]. split; [apply sort_Permutation|].
  split; [apply sort_descending|]. intros b. apply sort_with_bits.
Qed.

(** * Words of any length *)

Section AnyLength.

Import Feedback.

Implicit Types (g a : list ascii) (st : state) (n i j : nat).

Lemma foldl_preserves {A B : Type} (P : A → Prop) (f : A → B → A)
    (l : list B) :
  (∀ x y, y ∈ l → P x → P (f x y)) → ∀ x, P x → P (foldl f x l).
Proof.
  induction l as [|y l IH]; intros Hf x Hx; simpl; [done|].
  apply IH.
  - intros x' y' Hy'. apply Hf. by right.
  - apply Hf; [by left|done].
Qed.

Lemma pass1_step_cells g a n st i : cells n st → cells n (pass1_step g a st i).
Proof.
  unfold cells, pass1_step. intros [H1 H2].
  case_decide; simpl; by rewrite ?length_insert.
Qed.

Lemma scan_cells g a n i js : ∀ st, cells n st → cells n (scan g a i js st).
Proof.
  unfold cells. induction js as [|j js IH]; intros st [H1 H2]; simpl; [done|].
  destruct (truthy _); [by apply IH|].
  case_decide; [|by apply IH]. simpl. by rewrite !length_insert.
Qed.

Lemma pass2_step_cells g a n m st i :
  cells n st → cells n (pass2_step m g a st i).
Proof.
  unfold pass2_step. intros H. case_decide; [done|]. by apply scan_cells.
Qed.

Lemma run_cells n g a : cells n (run n g a).
Proof.
  unfold run. apply foldl_preserves; [intros; by apply pass2_step_cells|].
  apply foldl_preserves; [intros; by apply pass1_step_cells|].
  split; simpl; apply length_replicate.
Qed.

Lemma scan_other_cell g a i js k : ∀ st,
  k ≠ i → (scan g a i js st).1 !! k = st.1 !! k.
Proof.
  induction js as [|j js IH]; intros st Hk; simpl; [done|].
  destruct (truthy _); [by apply IH|].
  case_decide; [|by apply IH]. simpl. by rewrite list_lookup_insert_ne.
Qed.

Lemma pass1_step_keeps_CORRECT g a st i k :
  st.1 !! k = Some CORRECT → (pass1_step g a st i).1 !! k = Some CORRECT.
Proof.
  unfold pass1_step. intros H. case_decide; [|done]. simpl.
  destruct (decide (i = k)) as [->|Hne].
  - apply list_lookup_insert_eq. by eapply lookup_lt_Some.
  - by rewrite list_lookup_insert_ne.
Qed.

Lemma pass2_step_keeps_CORRECT g a m st i k :
  st.1 !! k = Some CORRECT → (pass2_step m g a st i).1 !! k = Some CORRECT.
Proof.
  unfold pass2_step. intros H. case_decide as Hi; [done|].
  rewrite scan_other_cell; [done|]. intros ->. done.
Qed.

(** The first loop marks [CORRECT] every cell it visits where the two
    reads agree, whether they read a letter or [undefined]. *)
Lemma pass1_loop_CORRECT g a k (idxs : list nat) : ∀ st,
  k ∈ idxs → k < length st.1 → g !! k = a !! k →
  (foldl (pass1_step g a) st idxs).1 !! k = Some CORRECT.
Proof.
  induction idxs as [|i idxs IH]; intros st Hk Hlen Heq;
    [by apply elem_of_nil in Hk|].
  simpl. destruct (decide (k ∈ idxs)) as [Hin|Hnin].
  - apply IH; [done| |done].
    unfold pass1_step. case_decide; simpl; by rewrite ?length_insert.
  - apply elem_of_cons in Hk as [->|]; [|done].
    apply (foldl_preserves (λ st, st.1 !! i = Some CORRECT)).
    + intros; by apply pass1_step_keeps_CORRECT.
    + unfold pass1_step. rewrite decide_True by done. simpl.
      by apply list_lookup_insert_eq.
Qed.

Lemma run_CORRECT n g a k :
  k < n → g !! k = a !! k → (run n g a).1 !! k = Some CORRECT.
Proof.
  intros Hk Heq. unfold run.
  apply (foldl_preserves (λ st, st.1 !! k = Some CORRECT)).
  - intros; by apply pass2_step_keeps_CORRECT.
  - apply pass1_loop_CORRECT; [apply elem_of_seq; lia| |done].
    simpl. by rewrite length_replicate.
Qed.

Lemma validWord_length (s : string) :
  validWord s = true → String.length s = 5.
Proof.
  unfold validWord. rewrite andb_true_iff, Nat.eqb_eq, split_length.
  by intros [? _].
Qed.

End AnyLength.

(** C9, as the specification states it, fails: on the 2-letter word [ab],
    as guess and as dictionary entry, [feedbackFor] and [filterCandidates]
    complete normally, with no failure: the feedback is a full scoring
    (the three cells past the end of both words are [CORRECT]) and the
    filter keeps the word. *)
Lemma no_InvalidWordLength_signalled :
  String.length "ab" ≠ 5
  ∧ call_feedbackFor "ab" "ab"
    = Normal [CORRECT; CORRECT; CORRECT; CORRECT; CORRECT]
  ∧ call_feedbackFor "ab" "ab" ≠ Throw InvalidWordLength
  ∧ call_filterCandidates (Some ["ab"])
      (Some [mkEntry "ab" [CORRECT; CORRECT; CORRECT; CORRECT; CORRECT]])
    = Normal ["ab"]
  ∧ call_filterCandidates (Some ["ab"])
      (Some [mkEntry "ab" [CORRECT; CORRECT; CORRECT; CORRECT; CORRECT]])
    ≠ Throw InvalidWordLength.
Proof. repeat split; (reflexivity || discriminate). Qed.

(** C9, amended. [feedbackFor] and [filterCandidates] check no length and
    signal no failure: on strings of any length they complete normally,
    [feedbackFor] with a feedback of 5 cells in which a position where the
    two words agree, or which is past the end of both, is [CORRECT], and
    [filterCandidates] with words of the dictionary.  Words that are not
    exactly 5 letters are stopped before these calls: every word the
    loader keeps and every guess [applyGuess] adds to the history has
    exactly 5 characters. *)
Theorem engine_checks_no_length
    (g a : string) (words : list string) (history : list HistoryEntry) :
  (∃ fb, call_feedbackFor g a = Normal fb
         ∧ length fb = 5
         ∧ ∀ i, i < 5 → split g !! i = split a !! i →
                fb !! i = Some CORRECT)
  ∧ (∃ cs, call_filterCandidates (Some words) (Some history) = Normal cs
           ∧ cs ⊆ words)
  ∧ (∀ lines w, w ∈ loadWords lines → String.length w = 5)
  ∧ (∀ guessText feedbackBoxes h,
       h ∈ applyGuess guessText feedbackBoxes history →
       h ∈ history ∨ String.length (guess h) = 5).
Proof.
  split; [|split; [|split]].
  - exists (feedbackFor g a). split; [done|]. split.
    + apply (run_cells 5).
    + intros i Hi Heq. by apply run_CORRECT.
  - exists (filterCandidates (Some words) (Some history)). split; [done|].
    intros c. rewrite elem_of_filterCandidates. by intros [? _].
  - intros lines w. unfold loadWords.
    rewrite list_elem_of_In, filter_In. intros [_ Hw].
    by apply validWord_length.
  - intros guessText feedbackBoxes h. unfold applyGuess.
    destruct (validWord guessText) eqn:Hg; simpl; [|by left].
    intros Hh. apply elem_of_cons in Hh as [->|]; [right|by left].
    by apply validWord_length.
Qed.

(** * Worked scenarios of the specification *)

Section Scenarios.

Lemma log2_half : log2 (1 / (1 + 1)) = (-1)%R.
Proof.
  unfold log2, Rdiv. rewrite Rmult_1_l, ln_Rinv by lra.
  replace (1 + 1)%R with 2%R by ring.
  pose proof ln_lt_2. field. lra.
Qed.

Lemma log2_quarter : log2 (1 / (1 + 1 + 1 + 1)) = (-2)%R.
Proof.
  unfold log2, Rdiv. rewrite Rmult_1_l, ln_Rinv by lra.
  replace (1 + 1 + 1 + 1)%R with (2 * 2)%R by ring.
  rewrite ln_mult by lra. pose proof ln_lt_2. field. lra.
Qed.

(** With no history all four words remain, and [crane] separates them
    into four feedback patterns: 2 bits. *)
Example scenario_no_history :
  filterCandidates (Some ["crane"; "slate"; "trace"; "brake"]) (Some [])
  = ["crane"; "slate"; "trace"; "brake"]
  ∧ computeEntropyForGuess "crane"
      (Some ["crane"; "slate"; "trace"; "brake"]) = 2%R.
Proof.
  split; [reflexivity|].
  unfold computeEntropyForGuess.
  change (length ["crane"; "slate"; "trace"; "brake"] =? 0) with false.
  cbv iota.
  assert (foldl (tally "crane") [] ["crane"; "slate"; "trace"; "brake"]
          = [("CORRECT|CORRECT|CORRECT|CORRECT|CORRECT", 1);
             ("ABSENT|ABSENT|CORRECT|ABSENT|CORRECT", 1);
             ("PRESENT|CORRECT|CORRECT|ABSENT|CORRECT", 1);
             ("ABSENT|CORRECT|CORRECT|ABSENT|CORRECT", 1)]) as ->
    by (vm_compute; reflexivity).
  unfold add_term. simpl. rewrite log2_quarter. lra.
Qed.

(** An all-[ABSENT] feedback for [crane] leaves none of the four words:
    each of them shares a letter with [crane]. *)
Example scenario_all_absent :
  filterCandidates (Some ["crane"; "slate"; "trace"; "brake"])
    (Some [mkEntry "crane" [ABSENT; ABSENT; ABSENT; ABSENT; ABSENT]])
  = [].
Proof. reflexivity. Qed.

(** Two candidates tie at 1 bit and are shown in dictionary order. *)
Example scenario_tie :
  topGuesses ["slate"; "crane"] []
  = [Suggestion.mk "slate" 1; Suggestion.mk "crane" 1].
Proof.
  assert (H : ∀ g, g = "slate" ∨ g = "crane" →
    computeEntropyForGuess g (Some ["slate"; "crane"]) = 1%R).
  { intros g Hg. unfold computeEntropyForGuess.
    change (length ["slate"; "crane"] =? 0) with false. cbv iota.
    destruct Hg as [-> | ->].
    - assert (foldl (tally "slate") [] ["slate"; "crane"]
              = [("CORRECT|CORRECT|CORRECT|CORRECT|CORRECT", 1);
                 ("ABSENT|ABSENT|CORRECT|ABSENT|CORRECT", 1)]) as ->
        by (vm_compute; reflexivity).
      unfold add_term. simpl. rewrite log2_half. lra.
    - assert (foldl (tally "crane") [] ["slate"; "crane"]
              = [("ABSENT|ABSENT|CORRECT|ABSENT|CORRECT", 1);
                 ("CORRECT|CORRECT|CORRECT|CORRECT|CORRECT", 1)]) as ->
        by (vm_compute; reflexivity).
      unfold add_term. simpl. rewrite log2_half. lra. }
  unfold topGuesses.
  change (filterCandidates (Some ["slate"; "crane"]) (Some []))
    with ["slate"; "crane"].
  unfold rank. cbn [fmap list_fmap].
  rewrite !H by auto.
  unfold selectTop. simpl. unfold byBitsDescending. simpl.
  destruct (Rlt_dec _ _); [lra|done].
Qed.

End Scenarios.

(** * More on the feedback of a guess *)

Section FeedbackFacts.

Implicit Types (g a : list ascii) (fb : list Result) (x : ascii).

Lemma feedbackFor_length (guess answer : string) :
  length (feedbackFor guess answer) = 5.
Proof. apply (run_cells 5). Qed.

Lemma feedbackFor_CORRECT_iff (guess answer : string) p :
  String.length guess = 5 → String.length answer = 5 → p < 5 →
  feedbackFor guess answer !! p = Some CORRECT
  ↔ split guess !! p = split answer !! p.
Proof.
  intros Hg Ha Hp. rewrite (feedbackFor_classify _ _ Hg Ha).
  apply classify_CORRECT; [congruence|lia].
Qed.

Lemma split_inj (s1 s2 : string) : split s1 = split s2 → s1 = s2.
Proof.
  unfold split. intros H.
  rewrite <- (String.string_of_list_ascii_of_string s1),
          <- (String.string_of_list_ascii_of_string s2). by rewrite H.
Qed.

Lemma marks_at_elem x g fb p r :
  g !! p = Some x → fb !! p = Some r → r ∈ marks_at x g fb.
Proof.
  revert fb p. induction g as [|y g IH]; intros [|r' fb] [|p]; simpl;
    try done; rewrite marks_at_cons.
  - intros [= ->] [= ->]. rewrite decide_True by done. by left.
  - intros Hg Hfb. case_decide; [right|]; by eapply IH.
Qed.

Lemma occurrences_zero x g : occurrences x g = 0 ↔ x ∉ g.
Proof.
  induction g as [|y g IH]; [by split; [intros _ H; inversion H|]|].
  rewrite occurrences_cons, not_elem_of_cons, <- IH.
  case_decide; [split; [lia|intros []; congruence] | split; [auto|lia]].
Qed.

Lemma occurrences_pos_lookup x g :
  0 < occurrences x g → ∃ j, g !! j = Some x.
Proof.
  intros H. destruct (decide (x ∈ g)) as [Hin|Hnin].
  - by apply list_elem_of_lookup_1.
  - apply occurrences_zero in Hnin. lia.
Qed.

Lemma filter_nil_not_elem (r : Result) (l : list Result) :
  length (filter (λ r', r' ≠ ABSENT) l) = 0 → r ∈ l → r = ABSENT.
Proof.
  intros Hlen Hr. destruct (decide (r = ABSENT)) as [|Hne]; [done|].
  assert (Hin : r ∈ filter (λ r', r' ≠ ABSENT) l)
    by (by apply list_elem_of_filter).
  destruct (filter _ l); [by apply elem_of_nil in Hin | done].
Qed.

End FeedbackFacts.

Lemma feedbackFor_same (w : string) :
  feedbackFor w w = [CORRECT; CORRECT; CORRECT; CORRECT; CORRECT].
Proof.
  pose proof (feedbackFor_length w w) as Hlen.
  assert (H : ∀ p, p < 5 → feedbackFor w w !! p = Some CORRECT)
    by (intros p Hp; by apply run_CORRECT).
  pose proof (H 0 ltac:(lia)) as H0. pose proof (H 1 ltac:(lia)) as H1.
  pose proof (H 2 ltac:(lia)) as H2. pose proof (H 3 ltac:(lia)) as H3.
  pose proof (H 4 ltac:(lia)) as H4.
  destruct (feedbackFor w w) as [|r0 [|r1 [|r2 [|r3 [|r4 [|r5 l]]]]]];
    simpl in *; try discriminate.
  by simplify_eq.
Qed.

Lemma all_CORRECT_same_word (guess answer : string) :
  String.length guess = 5 → String.length answer = 5 →
  feedbackFor guess answer = [CORRECT; CORRECT; CORRECT; CORRECT; CORRECT] →
  guess = answer.
Proof.
  intros Hg Ha Hfb. apply split_inj, list_eq. intros p.
  destruct (decide (p < 5)) as [Hp|Hp].
  - apply (feedbackFor_CORRECT_iff guess answer p Hg Ha Hp).
    rewrite Hfb. by do 5 (destruct p as [|p]; [done|]); lia.
  - rewrite !lookup_ge_None_2; [done|rewrite split_length; lia..].
Qed.

(** X1. A word scored against itself is [CORRECT] in all five cells,
    whatever its length. *)
Theorem feedbackFor_self (w : string) :
  feedbackFor w w = [CORRECT; CORRECT; CORRECT; CORRECT; CORRECT].
Proof. apply feedbackFor_same. Qed.

(** X2. On two 5-letter words the feedback is [CORRECT] in all five cells
    exactly when the guess is the answer. *)
Theorem feedbackFor_all_CORRECT_iff (guess answer : string) :
  String.length guess = 5 → String.length answer = 5 →
  feedbackFor guess answer = [CORRECT; CORRECT; CORRECT; CORRECT; CORRECT]
  ↔ guess = answer.
Proof.
  intros Hg Ha. split.
  - by apply all_CORRECT_same_word.
  - intros ->. apply feedbackFor_same.
Qed.

Lemma feedbackFor_all_CORRECT_iff_witness :
  (String.length "crane" = 5 ∧ String.length "crane" = 5)
  ∧ (feedbackFor "crane" "crane"
     = [CORRECT; CORRECT; CORRECT; CORRECT; CORRECT]
     ↔ "crane" = "crane").
Proof.
  split; [split; reflexivity|].
  apply (feedbackFor_all_CORRECT_iff "crane" "crane"); reflexivity.
Defined.

(** X3. The multiplicity rule on two 5-letter words: among the occurrences
    of a letter in the guess, the number of those marked [CORRECT] or
    [PRESENT] is the number of occurrences of the letter in the guess or in
    the answer, whichever is smaller. *)
Theorem feedbackFor_multiplicity_rule (x : ascii) (guess answer : string) :
  String.length guess = 5 → String.length answer = 5 →
  length (filter (λ r, r ≠ ABSENT)
            (marks_at x (split guess) (feedbackFor guess answer)))
  = occurrences x (split guess) `min` occurrences x (split answer).
Proof. apply feedbackFor_multiplicity. Qed.

Lemma feedbackFor_multiplicity_rule_witness :
  (String.length "eerie" = 5 ∧ String.length "speed" = 5)
  ∧ length (filter (λ r, r ≠ ABSENT)
              (marks_at "e" (split "eerie") (feedbackFor "eerie" "speed")))
    = occurrences "e" (split "eerie") `min` occurrences "e" (split "speed").
Proof.
  split; [split; reflexivity|].
  apply (feedbackFor_multiplicity_rule "e" "eerie" "speed"); reflexivity.
Defined.

(** X4. On two 5-letter words, a guess letter that does not occur in the
    answer is marked [ABSENT]. *)
Theorem feedbackFor_absent_letter
    (guess answer : string) (x : ascii) (p : nat) :
  String.length guess = 5 → String.length answer = 5 →
  split guess !! p = Some x → x ∉ split answer →
  feedbackFor guess answer !! p = Some ABSENT.
Proof.
  intros Hg Ha Hp Hx.
  pose proof (feedbackFor_multiplicity x guess answer Hg Ha) as Hm.
  apply occurrences_zero in Hx. rewrite Hx, Nat.min_0_r in Hm.
  destruct (lookup_lt_is_Some_2 (feedbackFor guess answer) p) as [r Hr].
  { rewrite feedbackFor_length. apply lookup_lt_Some in Hp.
    rewrite split_length in Hp. lia. }
  rewrite Hr. f_equal.
  eapply filter_nil_not_elem; [exact Hm|]. by eapply marks_at_elem.
Qed.

Lemma feedbackFor_absent_letter_witness :
  (String.length "crane" = 5 ∧ String.length "slate" = 5
   ∧ split "crane" !! 0 = Some "c"%char ∧ "c"%char ∉ split "slate")
  ∧ feedbackFor "crane" "slate" !! 0 = Some ABSENT.
Proof.
  assert (H : "c"%char ∉ split "slate").
  { intros H. apply list_elem_of_In in H. simpl in H.
    repeat destruct H as [H|H]; try discriminate H. done. }
  split; [repeat split; (reflexivity || exact H)|].
  apply (feedbackFor_absent_letter "crane" "slate" "c" 0);
    (reflexivity || exact H).
Defined.

(** X5. On two 5-letter words, a guess letter marked [PRESENT] occurs in
    the answer, at another position, and not at its own. *)
Theorem feedbackFor_PRESENT_elsewhere (guess answer : string) (p : nat) :
  String.length guess = 5 → String.length answer = 5 →
  feedbackFor guess answer !! p = Some PRESENT →
  ∃ x j, split guess !! p = Some x ∧ split answer !! j = Some x
         ∧ j ≠ p ∧ split answer !! p ≠ Some x.
Proof.
  intros Hg Ha Hfb.
  assert (Hp : p < 5)
    by (apply lookup_lt_Some in Hfb; by rewrite feedbackFor_length in Hfb).
  destruct (lookup_lt_is_Some_2 (split guess) p) as [x Hx];
    [rewrite split_length; lia|].
  assert (Hnot : split answer !! p ≠ Some x).
  { intros Hax.
    assert (feedbackFor guess answer !! p = Some CORRECT) as Hc
      by (apply feedbackFor_CORRECT_iff; [done..|congruence]).
    congruence. }
  pose proof (feedbackFor_multiplicity x guess answer Hg Ha) as Hm.
  assert (Hin : PRESENT ∈ filter (λ r, r ≠ ABSENT)
                  (marks_at x (split guess) (feedbackFor guess answer))).
  { apply list_elem_of_filter. split; [done|]. by eapply marks_at_elem. }
  destruct (occurrences_pos_lookup x (split answer)) as [j Hj].
  { destruct (filter _ _) eqn:E; [by apply elem_of_nil in Hin|].
    simpl in Hm. lia. }
  exists x, j. repeat split; try done. intros ->. done.
Qed.

Lemma feedbackFor_PRESENT_elsewhere_witness :
  (String.length "sheep" = 5 ∧ String.length "speed" = 5
   ∧ feedbackFor "sheep" "speed" !! 4 = Some PRESENT)
  ∧ ∃ x j, split "sheep" !! 4 = Some x ∧ split "speed" !! j = Some x
           ∧ j ≠ 4 ∧ split "speed" !! 4 ≠ Some x.
Proof.
  split; [repeat split; reflexivity|].
  apply (feedbackFor_PRESENT_elsewhere "sheep" "speed" 4); reflexivity.
Defined.

(** * The key of a feedback *)

Section FeedbackKey.

Lemma concat_cons_cons (sep x y : string) (l : list string) :
  String.concat sep (x :: y :: l)
  = String.append x (String.append sep (String.concat sep (y :: l))).
Proof. reflexivity. Qed.

Lemma Result_name_inj (r1 r2 : Result) :
  Result_name r1 = Result_name r2 → r1 = r2.
Proof. by destruct r1, r2. Qed.

(** No name is another name followed by a separator and more text. *)
Lemma Result_name_not_prefix (r1 r2 : Result) (s : string) :
  Result_name r1 ≠ String.append (Result_name r2) (String.append "|" s).
Proof. by destruct r1, r2. Qed.

Lemma Result_name_sep_inj (r1 r2 : Result) (s1 s2 : string) :
  String.append (Result_name r1) (String.append "|" s1)
  = String.append (Result_name r2) (String.append "|" s2) →
  r1 = r2 ∧ s1 = s2.
Proof. destruct r1, r2; simpl; intros H; by simplify_eq. Qed.

Lemma feedbackKey_inj (fb1 fb2 : list Result) :
  feedbackKey fb1 = feedbackKey fb2 → fb1 = fb2.
Proof.
  unfold feedbackKey. revert fb2.
  induction fb1 as [|r1 fb1 IH]; intros [|r2 fb2].
  - done.
  - destruct fb2 as [|r2' fb2]; [by destruct r2|].
    cbn [fmap list_fmap]. rewrite concat_cons_cons. by destruct r2.
  - destruct fb1 as [|r1' fb1]; [by destruct r1|].
    cbn [fmap list_fmap]. rewrite concat_cons_cons. by destruct r1.
  - destruct fb1 as [|r1' fb1], fb2 as [|r2' fb2]; cbn [fmap list_fmap];
      rewrite ?concat_cons_cons.
    + intros H. apply Result_name_inj in H. by subst.
    + intros H. by apply Result_name_not_prefix in H.
    + intros H. symmetry in H. by apply Result_name_not_prefix in H.
    + intros H. apply Result_name_sep_inj in H as [-> H].
      f_equal. by apply IH.
Qed.

End FeedbackKey.

(** X6. The key identifies the feedback: two feedback arrays with the same
    key are the same array, so grouping answers by key groups them by
    feedback. *)
Theorem feedbackKey_injective (fb1 fb2 : list Result) :
  feedbackKey fb1 = feedbackKey fb2 ↔ fb1 = fb2.
Proof. split; [apply feedbackKey_inj | by intros ->]. Qed.

(** * More on candidate filtering *)

Section FilterFacts.

Implicit Types (ws : list string) (hs : list HistoryEntry) (c : string).

Lemma consistent_Permutation hs hs' c :
  hs ≡ₚ hs' → consistent hs c = consistent hs' c.
Proof.
  intros Hp. apply Bool.eq_iff_eq_true.
  rewrite !consistent_Forall. by rewrite Hp.
Qed.

Lemma filter_sublist {A : Type} (f : A → bool) (l : list A) :
  List.filter f l `sublist_of` l.
Proof.
  induction l as [|x l IH]; simpl; [done|].
  destruct (f x); by constructor.
Qed.

Lemma filter_filter_andb {A : Type} (f g : A → bool) (l : list A) :
  List.filter g (List.filter f l) = List.filter (λ x, f x && g x) l.
Proof.
  induction l as [|x l IH]; simpl; [done|].
  destruct (f x); simpl; [destruct (g x)|]; by rewrite IH.
Qed.

Lemma filterCandidates_sublist_dictionary ws hs :
  filterCandidates (Some ws) (Some hs) `sublist_of` ws.
Proof. rewrite filterCandidates_filter. apply filter_sublist. Qed.

Lemma filterCandidates_again ws hs1 hs2 :
  filterCandidates (Some (filterCandidates (Some ws) (Some hs1))) (Some hs2)
  = filterCandidates (Some ws) (Some (hs1 ++ hs2)).
Proof. by rewrite filterCandidates_app, (filterCandidates_filter _ hs2). Qed.

Lemma filterCandidates_sublist_of
    (words : option (list string)) (history : option (list HistoryEntry)) :
  filterCandidates words history `sublist_of` default [] words.
Proof.
  destruct words as [ws|]; [|done]. destruct history as [hs|].
  - apply filterCandidates_sublist_dictionary.
  - simpl. by destruct ws.
Qed.

Lemma filterCandidates_NoDup ws hs :
  NoDup ws → NoDup (filterCandidates (Some ws) (Some hs)).
Proof.
  intros Hnd. eapply sublist_NoDup; [exact Hnd|].
  apply filterCandidates_sublist_dictionary.
Qed.

End FilterFacts.

(** X7. The order of the history does not matter: two histories with the
    same entries, in any order, leave the same candidates. *)
Theorem filterCandidates_history_order
    (words : list string) (history history' : list HistoryEntry) :
  history ≡ₚ history' →
  filterCandidates (Some words) (Some history)
  = filterCandidates (Some words) (Some history').
Proof.
  intros Hp. rewrite !filterCandidates_filter.
  apply filter_ext. intros c. by apply consistent_Permutation.
Qed.

Lemma filterCandidates_history_order_witness :
  let e1 := mkEntry "crane" [ABSENT; ABSENT; CORRECT; ABSENT; CORRECT] in
  let e2 := mkEntry "sheep" [CORRECT; ABSENT; PRESENT; ABSENT; ABSENT] in
  [e1; e2] ≡ₚ [e2; e1]
  ∧ filterCandidates (Some ["slate"; "trace"; "brake"]) (Some [e1; e2])
    = filterCandidates (Some ["slate"; "trace"; "brake"]) (Some [e2; e1]).
Proof.
  intros e1 e2.
  assert (H : [e1; e2] ≡ₚ [e2; e1]) by apply perm_swap.
  split; [exact H|].
  exact (filterCandidates_history_order _ _ _ H).
Defined.

(** X8. Filtering composes: filtering the candidates left by one history
    with a second history gives the candidates of the two histories put
    together; in particular filtering the result again with the same
    history changes nothing. *)
Theorem filterCandidates_incremental
    (words : list string) (h1 h2 : list HistoryEntry) :
  filterCandidates (Some (filterCandidates (Some words) (Some h1))) (Some h2)
  = filterCandidates (Some words) (Some (h1 ++ h2))
  ∧ filterCandidates (Some (filterCandidates (Some words) (Some h1)))
      (Some h1)
    = filterCandidates (Some words) (Some h1).
Proof.
  split; [apply filterCandidates_again|].
  rewrite !filterCandidates_filter, filter_filter_andb.
  apply filter_ext. intros c. by destruct (consistent h1 c).
Qed.

(** X9. The candidates are the dictionary with words taken out: they keep
    the order of the dictionary, and a dictionary without duplicates gives
    candidates without duplicates.  This holds for an absent dictionary or
    history too. *)
Theorem filterCandidates_keeps_order
    (words : option (list string)) (history : option (list HistoryEntry)) :
  filterCandidates words history `sublist_of` default [] words
  ∧ (NoDup (default [] words) → NoDup (filterCandidates words history)).
Proof.
  pose proof (filterCandidates_sublist_of words history) as H.
  split; [done|]. intros Hnd. by eapply sublist_NoDup.
Qed.

(** X10. A history entry whose feedback does not have exactly 5 cells
    takes every candidate out. *)
Theorem filterCandidates_wrong_feedback_length
    (words : list string) (history : list HistoryEntry) (h : HistoryEntry) :
  h ∈ history → length (feedback h) ≠ 5 →
  filterCandidates (Some words) (Some history) = [].
Proof.
  intros Hh Hlen. apply elem_of_nil_inv. intros c Hc.
  apply elem_of_filterCandidates in Hc as [_ Hall].
  rewrite Forall_forall in Hall. specialize (Hall h Hh).
  rewrite <- Hall, feedbackFor_length in Hlen. done.
Qed.

Lemma filterCandidates_wrong_feedback_length_witness :
  let h := mkEntry "crane" [CORRECT; CORRECT; CORRECT; CORRECT] in
  (h ∈ [h] ∧ length (feedback h) ≠ 5)
  ∧ filterCandidates (Some ["crane"; "slate"]) (Some [h]) = [].
Proof.
  intros h.
  assert (H1 : h ∈ [h]) by (by left).
  assert (H2 : length (feedback h) ≠ 5) by (simpl; lia).
  split; [by split|].
  exact (filterCandidates_wrong_feedback_length _ _ h H1 H2).
Defined.

(** X11. Truthful feedback never takes the answer out: when every entry
    of the history holds the feedback that its guess gets against a word
    [w] of the dictionary, [w] is a candidate. *)
Theorem filterCandidates_keeps_answer
    (words : list string) (w : string) (guesses : list string) :
  w ∈ words →
  w ∈ filterCandidates (Some words)
        (Some ((λ g, mkEntry g (feedbackFor g w)) <$> guesses)).
Proof.
  intros Hw. apply elem_of_filterCandidates. split; [done|].
  induction guesses as [|g guesses IH]; [constructor|].
  cbn [fmap list_fmap]. constructor; [|exact IH].
  cbn [guess feedback]. reflexivity.
Qed.

Lemma filterCandidates_keeps_answer_witness :
  "brake" ∈ ["crane"; "slate"; "trace"; "brake"]
  ∧ "brake" ∈ filterCandidates (Some ["crane"; "slate"; "trace"; "brake"])
      (Some ((λ g, mkEntry g (feedbackFor g "brake")) <$> ["crane"; "slate"])).
Proof.
  assert (H : "brake" ∈ ["crane"; "slate"; "trace"; "brake"])
    by (apply list_elem_of_In; simpl; auto).
  split; [exact H|].
  exact (filterCandidates_keeps_answer _ "brake" ["crane"; "slate"] H).
Defined.

(** X12. After an entry that marks a 5-letter guess [CORRECT] in all five
    cells, the only 5-letter word that can remain is that guess. *)
Theorem filterCandidates_solved
    (words : list string) (history : list HistoryEntry) (g c : string) :
  mkEntry g [CORRECT; CORRECT; CORRECT; CORRECT; CORRECT] ∈ history →
  String.length g = 5 → String.length c = 5 →
  c ∈ filterCandidates (Some words) (Some history) →
  c = g.
Proof.
  intros Hh Hg Hc Hin.
  apply elem_of_filterCandidates in Hin as [_ Hall].
  rewrite Forall_forall in Hall. specialize (Hall _ Hh). simpl in Hall.
  symmetry. by apply (all_CORRECT_same_word g c).
Qed.

Lemma filterCandidates_solved_witness :
  let h := mkEntry "slate" [CORRECT; CORRECT; CORRECT; CORRECT; CORRECT] in
  (h ∈ [h] ∧ String.length "slate" = 5 ∧ String.length "slate" = 5
   ∧ "slate" ∈ filterCandidates (Some ["crane"; "slate"]) (Some [h]))
  ∧ "slate" = "slate".
Proof.
  intros h.
  assert (H1 : h ∈ [h]) by (by left).
  assert (H2 : "slate" ∈ filterCandidates (Some ["crane"; "slate"]) (Some [h]))
    by (apply list_elem_of_In; vm_compute; auto).
  split; [repeat split; (exact H1 || exact H2 || reflexivity)|].
  exact (filterCandidates_solved ["crane"; "slate"] [h] "slate" "slate"
           H1 eq_refl eq_refl H2).
Defined.

(** * More on the entropy of a guess *)

Section CountingLoop.

Implicit Types (counts : Counts.t) (key k guess : string) (cs : list string).

Lemma counts_get_set k key v counts :
  Counts.get k (Counts.set key v counts)
  = if decide (k = key) then Some v else Counts.get k counts.
Proof.
  induction counts as [|[k' c] counts IH]; simpl.
  - repeat case_decide; congruence.
  - repeat (case_decide; simpl); try congruence.
Qed.

Lemma or_zero_count_read n : or_zero (count_read n) = n.
Proof. by destruct n. Qed.

Lemma pattern_count_cons guess k w cs :
  pattern_count guess k (w :: cs)
  = (if decide (feedbackKey (feedbackFor guess w) = k) then 1 else 0)
    + pattern_count guess k cs.
Proof. unfold pattern_count. rewrite filter_cons. by case_decide. Qed.

(** The counting loop adds, to each count it starts from, the number of
    candidates with that key. *)
Lemma tally_loop_get guess cs : ∀ counts (base : string → nat),
  (∀ k, Counts.get k counts = count_read (base k)) →
  ∀ k, Counts.get k (foldl (tally guess) counts cs)
       = count_read (base k + pattern_count guess k cs).
Proof.
  induction cs as [|w cs IH]; intros counts base Hbase k.
  - simpl. rewrite Hbase. f_equal. unfold pattern_count. simpl. lia.
  - simpl. set (key := feedbackKey (feedbackFor guess w)).
    rewrite (IH _ (λ k', base k' + if decide (key = k') then 1 else 0)).
    + f_equal. rewrite pattern_count_cons. fold key. lia.
    + intros k'. unfold tally. fold key. rewrite counts_get_set, !Hbase.
      rewrite or_zero_count_read.
      case_decide as E.
      * subst k'. rewrite decide_True by done.
        replace (base key + 1) with (S (base key)) by lia. done.
      * rewrite decide_False by congruence. f_equal. lia.
Qed.

Lemma countPatterns_get guess cs k :
  Counts.get k (countPatterns guess cs)
  = count_read (pattern_count guess k cs).
Proof.
  unfold countPatterns.
  by rewrite (tally_loop_get guess cs [] (λ _, 0)).
Qed.

Lemma counts_set_keys key v counts :
  NoDup counts.*1 → NoDup (Counts.set key v counts).*1
  ∧ ∀ k, k ∈ (Counts.set key v counts).*1 ↔ k = key ∨ k ∈ counts.*1.
Proof.
  induction counts as [|[k' c] counts IH]; intros Hnd; simpl.
  - split; [repeat constructor; by intros ?%elem_of_nil|].
    intros k. rewrite list_elem_of_singleton. split; [auto|].
    by intros [?|?%elem_of_nil].
  - apply NoDup_cons in Hnd as [Hk' Hnd]. destruct (IH Hnd) as [IH1 IH2].
    case_decide as E; simpl.
    + split; [by constructor|]. intros k. rewrite elem_of_cons. split.
      * auto.
      * intros [->|H]; [by left | done].
    + split.
      * constructor; [|done]. rewrite IH2. intros [?|?]; [congruence|done].
      * intros k. rewrite !elem_of_cons, IH2. split.
        -- intros [?|[?|?]]; auto.
        -- intros [?|[?|?]]; auto.
Qed.

Lemma countPatterns_NoDup guess cs : NoDup (countPatterns guess cs).*1.
Proof.
  unfold countPatterns.
  apply (foldl_preserves (λ counts : Counts.t, NoDup counts.*1)).
  - intros counts w _ Hnd. by apply counts_set_keys.
  - constructor.
Qed.

Lemma countPatterns_total guess cs :
  total (countPatterns guess cs) = length cs.
Proof.
  unfold countPatterns.
  destruct (tally_loop guess cs [] ltac:(constructor)) as [_ H].
  by rewrite H.
Qed.

Lemma counts_get_elem k c counts :
  Counts.get k counts = Some c → (k, c) ∈ counts.
Proof.
  induction counts as [|[k' c'] counts IH]; simpl; [done|].
  case_decide; [intros [= ->]; subst; by left|]. intros Hget. right. auto.
Qed.

Lemma counts_elem_get k c counts :
  NoDup counts.*1 → (k, c) ∈ counts → Counts.get k counts = Some c.
Proof.
  induction counts as [|[k' c'] counts IH]; simpl; intros Hnd Hin.
  - by apply elem_of_nil in Hin.
  - apply NoDup_cons in Hnd as [Hk' Hnd].
    apply elem_of_cons in Hin as [[= -> ->]|Hin].
    + by rewrite decide_True.
    + case_decide; [|by apply IH]. subst k'. destruct Hk'.
      apply list_elem_of_fmap. by exists (k, c).
Qed.

End CountingLoop.

(** X13. The counting loop groups the candidates by feedback: when it is
    done the object [counts] holds, for each key, the number of candidates
    whose feedback has that key, and has no property for a key that no
    candidate produces; its keys are distinct and its counts add up to the
    number of candidates. *)
Theorem countPatterns_partition
    (guess : string) (candidates : list string) :
  (∀ key, Counts.get key (countPatterns guess candidates)
          = count_read (pattern_count guess key candidates))
  ∧ NoDup (countPatterns guess candidates).*1
  ∧ total (countPatterns guess candidates) = length candidates.
Proof.
  split; [intros key; apply countPatterns_get|].
  split; [apply countPatterns_NoDup | apply countPatterns_total].
Qed.

Section EntropyValues.

Implicit Types (counts : Counts.t) (key k guess : string) (cs : list string).
Implicit Types (n c : nat).

Lemma countPatterns_bounds guess cs :
  Forall (λ kc, 1 ≤ kc.2 ∧ kc.2 ≤ length cs) (countPatterns guess cs).
Proof.
  unfold countPatterns.
  destruct (tally_loop guess cs [] ltac:(constructor)) as [Hpos Htot].
  change (total []) with 0 in Htot. rewrite Nat.add_0_l in Htot.
  pose proof (count_le_total (foldl (tally guess) [] cs)) as Hle.
  rewrite Htot in Hle. rewrite Forall_forall in *. intros kc Hkc.
  split; auto.
Qed.

Lemma computeEntropyForGuess_unfold guess w cs :
  computeEntropyForGuess guess (Some (w :: cs))
  = foldl (add_term (length (w :: cs))) 0%R (countPatterns guess (w :: cs)).
Proof. reflexivity. Qed.

(** A count below [n] contributes a positive term. *)
Lemma term_positive c n :
  1 ≤ c → c < n →
  (0 < - (INR c / INR n) * log2 (INR c / INR n))%R.
Proof.
  intros Hc Hn. unfold log2, Rdiv.
  assert (HC : (0 < INR c)%R) by (apply lt_0_INR; lia).
  assert (HN : (0 < INR n)%R) by (apply lt_0_INR; lia).
  assert (HiN : (0 < / INR n)%R) by (by apply Rinv_0_lt_compat).
  rewrite ln_mult, ln_Rinv by done.
  assert (H1 : (ln (INR c) < ln (INR n))%R)
    by (apply ln_increasing; [done | apply lt_INR; lia]).
  pose proof ln_lt_2 as H2.
  assert (Hi2 : (0 < / ln 2)%R) by (apply Rinv_0_lt_compat; lra).
  assert (Hp : (0 < INR c * / INR n)%R) by (by apply Rmult_lt_0_compat).
  set (p := (INR c * / INR n)%R) in *. set (q := (/ ln 2)%R) in *.
  set (lc := ln (INR c)) in *. set (ln_n := ln (INR n)) in *.
  replace (- p * ((lc + - ln_n) * q))%R with ((p * q) * (ln_n - lc))%R
    by ring.
  apply Rmult_lt_0_compat; [by apply Rmult_lt_0_compat | lra].
Qed.

(** The sum is at least what it starts from plus the term of any one of
    the counts. *)
Lemma entropy_loop_ge_term n counts k c : ∀ acc : R,
  Forall (λ kc, 1 ≤ kc.2 ∧ kc.2 ≤ n) counts →
  (k, c) ∈ counts →
  (acc + - (INR c / INR n) * log2 (INR c / INR n)
   <= foldl (add_term n) acc counts)%R.
Proof.
  induction counts as [|[k' c'] counts IH]; intros acc Hb Hin.
  - by apply elem_of_nil in Hin.
  - apply Forall_cons in Hb as [[Hc Hn] Hb]. simpl in Hc, Hn.
    change (foldl (add_term n) acc ((k', c') :: counts))
      with (foldl (add_term n) (add_term n acc (k', c')) counts).
    apply elem_of_cons in Hin as [[= -> ->]|Hin].
    + pose proof (entropy_loop_bounds n counts (add_term n acc (k', c')) Hb)
        as [Hlo _].
      unfold add_term in *. simpl in *. lra.
    + specialize (IH (add_term n acc (k', c')) Hb Hin).
      pose proof (term_bounds c' n Hc Hn) as [Ht _].
      unfold add_term in *. simpl in *. lra.
Qed.

Lemma pattern_count_elem guess w cs :
  w ∈ cs → 0 < pattern_count guess (feedbackKey (feedbackFor guess w)) cs.
Proof.
  induction cs as [|w' cs IH]; intros Hin; [by apply elem_of_nil in Hin|].
  rewrite pattern_count_cons.
  apply elem_of_cons in Hin as [->|Hin].
  - rewrite decide_True by done. lia.
  - specialize (IH Hin). lia.
Qed.

Lemma pattern_count_disjoint guess k1 k2 cs :
  k1 ≠ k2 →
  pattern_count guess k1 cs + pattern_count guess k2 cs ≤ length cs.
Proof.
  intros Hne. induction cs as [|w cs IH]; [done|].
  rewrite !pattern_count_cons. cbn [length].
  repeat case_decide; try lia. congruence.
Qed.

(** Two candidates with different feedback make the entropy positive. *)
Lemma entropy_positive guess cs w1 w2 :
  w1 ∈ cs → w2 ∈ cs → feedbackFor guess w1 ≠ feedbackFor guess w2 →
  (0 < computeEntropyForGuess guess (Some cs))%R.
Proof.
  intros H1 H2 Hne. destruct cs as [|w cs]; [by apply elem_of_nil in H1|].
  rewrite computeEntropyForGuess_unfold.
  set (n := length (w :: cs)). set (all := w :: cs) in *.
  set (k1 := feedbackKey (feedbackFor guess w1)).
  set (k2 := feedbackKey (feedbackFor guess w2)).
  assert (Hk : k1 ≠ k2) by (intros E; by apply feedbackKey_inj in E).
  pose proof (pattern_count_elem guess w1 all H1) as Hp1.
  pose proof (pattern_count_elem guess w2 all H2) as Hp2.
  pose proof (pattern_count_disjoint guess k1 k2 all Hk) as Hd.
  fold k1 in Hp1. fold k2 in Hp2. fold n in Hd.
  pose proof (countPatterns_get guess all k1) as Hget.
  destruct (pattern_count guess k1 all) as [|c] eqn:Ec; [lia|].
  simpl in Hget. apply counts_get_elem in Hget.
  pose proof (entropy_loop_ge_term n _ k1 (S c) 0%R
                (countPatterns_bounds guess all) Hget) as Hge.
  pose proof (term_positive (S c) n ltac:(lia) ltac:(lia)) as Hpos.
  lra.
Qed.

(** Candidates that all have one feedback are counted under one key. *)
Lemma tally_same guess key w c :
  feedbackKey (feedbackFor guess w) = key →
  tally guess [(key, S c)] w = [(key, S (S c))].
Proof.
  intros Hw. unfold tally. rewrite Hw. simpl.
  rewrite !decide_True by done. simpl. do 2 f_equal. lia.
Qed.

Lemma tally_loop_same guess key cs : ∀ c,
  Forall (λ w, feedbackKey (feedbackFor guess w) = key) cs →
  foldl (tally guess) [(key, S c)] cs = [(key, S c + length cs)].
Proof.
  induction cs as [|w cs IH]; intros c Hall.
  - simpl. by rewrite Nat.add_0_r.
  - apply Forall_cons in Hall as [Hw Hall].
    change (foldl (tally guess) [(key, S c)] (w :: cs))
      with (foldl (tally guess) (tally guess [(key, S c)] w) cs).
    rewrite (tally_same _ _ _ _ Hw), IH by done.
    do 2 f_equal. simpl. lia.
Qed.

Lemma entropy_zero_same guess w cs :
  Forall (λ w', feedbackFor guess w' = feedbackFor guess w) cs →
  computeEntropyForGuess guess (Some (w :: cs)) = 0%R.
Proof.
  intros Hall. rewrite computeEntropyForGuess_unfold.
  unfold countPatterns. simpl foldl at 2.
  change (tally guess [] w)
    with [(feedbackKey (feedbackFor guess w), 1)].
  rewrite (tally_loop_same guess _ cs 0)
    by (eapply Forall_impl; [exact Hall|]; simpl; by intros ? ->).
  cbn [foldl]. unfold add_term. cbn [snd].
  change (1 + length cs) with (length (w :: cs)).
  assert (HN : (0 < INR (length (w :: cs)))%R)
    by (apply lt_0_INR; simpl; lia).
  replace (INR (length (w :: cs)) / INR (length (w :: cs)))%R with 1%R
    by (field; lra).
  unfold log2. rewrite ln_1. unfold Rdiv. rewrite Rmult_0_l. lra.
Qed.

End EntropyValues.

(** X14. For a non-empty candidate array the entropy of a guess is [0]
    exactly when the guess gets the same feedback against every candidate
    (entropy as the exact real value of the formula). *)
Theorem computeEntropyForGuess_zero_iff
    (g : string) (candidates : list string) :
  candidates ≠ [] →
  computeEntropyForGuess g (Some candidates) = 0%R
  ↔ ∀ w w', w ∈ candidates → w' ∈ candidates →
            feedbackFor g w = feedbackFor g w'.
Proof.
  intros Hne. destruct candidates as [|w0 cs]; [done|]. split.
  - intros Hz w w' Hw Hw'.
    destruct (decide (feedbackFor g w = feedbackFor g w')) as [|Hd]; [done|].
    pose proof (entropy_positive g (w0 :: cs) w w' Hw Hw' Hd). lra.
  - intros Hsame. apply entropy_zero_same, Forall_forall.
    intros w Hw. apply Hsame; [by right | by left].
Qed.

Lemma computeEntropyForGuess_zero_iff_witness :
  ["crane"; "slate"] ≠ []
  ∧ (computeEntropyForGuess "fuzzy" (Some ["crane"; "slate"]) = 0%R
     ↔ ∀ w w', w ∈ ["crane"; "slate"] → w' ∈ ["crane"; "slate"] →
               feedbackFor "fuzzy" w = feedbackFor "fuzzy" w')
  ∧ computeEntropyForGuess "fuzzy" (Some ["crane"; "slate"]) = 0%R
  ∧ computeEntropyForGuess "crane" (Some ["crane"; "slate"]) ≠ 0%R.
Proof.
  assert (H : ["crane"; "slate"] ≠ []) by discriminate.
  split; [exact H|].
  split; [exact (computeEntropyForGuess_zero_iff "fuzzy" _ H)|]. split.
  - apply (computeEntropyForGuess_zero_iff "fuzzy" ["crane"; "slate"] H).
    intros w w' Hw Hw'.
    apply elem_of_cons in Hw as [->|Hw];
      [|apply list_elem_of_singleton in Hw as ->];
      (apply elem_of_cons in Hw' as [->|Hw'];
        [|apply list_elem_of_singleton in Hw' as ->]);
      vm_compute; reflexivity.
  - intros Hz.
    pose proof (proj1 (computeEntropyForGuess_zero_iff "crane"
                         ["crane"; "slate"] H) Hz "crane" "slate"
                  ltac:(by left) ltac:(by right; left)) as E.
    vm_compute in E. discriminate E.
Defined.

Lemma entropy_positive_among
    (g : string) (candidates : list string) :
  NoDup candidates →
  Forall (λ w, String.length w = 5) candidates →
  g ∈ candidates → 2 ≤ length candidates →
  (0 < computeEntropyForGuess g (Some candidates))%R.
Proof.
  intros Hnd Hlen Hg Hn.
  assert (∃ w, w ∈ candidates ∧ w ≠ g) as (w & Hw & Hne).
  { destruct candidates as [|w1 [|w2 cs]]; simpl in Hn; try lia.
    apply NoDup_cons in Hnd as [Hw1 _].
    destruct (decide (w1 = g)) as [->|].
    - exists w2. split; [by right; left|]. intros ->. apply Hw1. by left.
    - exists w1. split; [by left | done]. }
  apply (entropy_positive g candidates g w Hg Hw).
  rewrite feedbackFor_same. intros E. symmetry in E.
  rewrite Forall_forall in Hlen.
  apply all_CORRECT_same_word in E; [congruence|by apply Hlen..].
Qed.

(** X15. With at least two candidates, all 5-letter words and no word
    twice, a guess taken from the candidates has positive entropy: it tells
    itself from every other candidate. *)
Theorem computeEntropyForGuess_positive
    (g : string) (candidates : list string) :
  NoDup candidates →
  Forall (λ w, String.length w = 5) candidates →
  g ∈ candidates → 2 ≤ length candidates →
  (0 < computeEntropyForGuess g (Some candidates))%R.
Proof. apply entropy_positive_among. Qed.

Lemma computeEntropyForGuess_positive_witness :
  (NoDup ["crane"; "slate"]
   ∧ Forall (λ w, String.length w = 5) ["crane"; "slate"]
   ∧ "crane" ∈ ["crane"; "slate"] ∧ 2 ≤ length ["crane"; "slate"])
  ∧ (0 < computeEntropyForGuess "crane" (Some ["crane"; "slate"]))%R.
Proof.
  assert (H1 : NoDup ["crane"; "slate"]).
  { apply NoDup_cons. split.
    - intros H. apply list_elem_of_singleton in H. discriminate H.
    - apply NoDup_singleton. }
  assert (H2 : Forall (λ w, String.length w = 5) ["crane"; "slate"])
    by (repeat constructor).
  assert (H3 : "crane" ∈ ["crane"; "slate"]) by (by left).
  assert (H4 : 2 ≤ length ["crane"; "slate"]) by (simpl; lia).
  split; [by repeat split|].
  exact (computeEntropyForGuess_positive "crane" _ H1 H2 H3 H4).
Defined.

Section DistinctPatterns.

Implicit Types (counts : Counts.t) (key guess : string) (cs : list string).

Lemma counts_new_key key v counts :
  key ∉ counts.*1 →
  Counts.get key counts = None
  ∧ Counts.set key v counts = counts ++ [(key, v)].
Proof.
  induction counts as [|[k c] counts IH]; simpl; intros Hk; [done|].
  apply not_elem_of_cons in Hk as [Hne Hk]. destruct (IH Hk) as [IH1 IH2].
  rewrite !decide_False by congruence. by rewrite IH1, IH2.
Qed.

(** Candidates with pairwise different keys, none of them counted yet,
    each add a property with count 1, in their order. *)
Lemma tally_new_key guess counts w :
  feedbackKey (feedbackFor guess w) ∉ counts.*1 →
  tally guess counts w = counts ++ [(feedbackKey (feedbackFor guess w), 1)].
Proof.
  intros Hnew. unfold tally.
  destruct (counts_new_key (feedbackKey (feedbackFor guess w)) 1 counts Hnew)
    as [Hget Hset].
  rewrite Hget. exact Hset.
Qed.

Lemma tally_loop_distinct guess cs : ∀ counts,
  NoDup ((λ w, feedbackKey (feedbackFor guess w)) <$> cs) →
  (∀ w, w ∈ cs → feedbackKey (feedbackFor guess w) ∉ counts.*1) →
  foldl (tally guess) counts cs
  = counts ++ ((λ w, (feedbackKey (feedbackFor guess w), 1)) <$> cs).
Proof.
  induction cs as [|w cs IH]; intros counts Hnd Hnew.
  - cbn [foldl fmap list_fmap]. by rewrite app_nil_r.
  - cbn [fmap list_fmap] in Hnd. apply NoDup_cons in Hnd as [Hw Hnd].
    cbn [foldl fmap list_fmap].
    rewrite (tally_new_key guess counts w) by (apply Hnew; by left).
    rewrite IH; [by rewrite <- app_assoc|done|].
    intros w' Hw'. rewrite fmap_app. cbn [fmap list_fmap fst].
    rewrite elem_of_app, list_elem_of_singleton. intros [Hin|Hin].
    + by apply (Hnew w'); [right|].
    + apply Hw. rewrite <- Hin.
      apply list_elem_of_fmap. exists w'. split; [reflexivity|exact Hw'].
Qed.

End DistinctPatterns.

(** X16. When the guess gets a different feedback against each candidate,
    the counting loop makes one property per candidate, in the order of
    the candidates, each with count 1; the number the program returns is
    then the binary64 sum, from [0], of as many terms as there are
    candidates, each one [-(1/n) * Math.log2(1/n)]. *)
Theorem computeEntropyForGuess_all_distinct
    (Math_log2 : float → float) (g : string) (candidates : list string) :
  NoDup (feedbackFor g <$> candidates) →
  countPatterns g candidates
  = (λ w, (feedbackKey (feedbackFor g w), 1)) <$> candidates
  ∧ Binary64.computeEntropyForGuess Math_log2 g (Some candidates)
    = foldl (λ entropy _,
               (entropy
                + (- (Binary64.number 1 / Binary64.number (length candidates)))
                  * Math_log2 (Binary64.number 1
                               / Binary64.number (length candidates)))%float)
        0%float candidates.
Proof.
  intros Hnd.
  assert (Hcounts : countPatterns g candidates
                    = (λ w, (feedbackKey (feedbackFor g w), 1)) <$> candidates).
  { unfold countPatterns. rewrite (tally_loop_distinct g candidates []).
    - by rewrite app_nil_l.
    - replace ((λ w, feedbackKey (feedbackFor g w)) <$> candidates)
        with (feedbackKey <$> (feedbackFor g <$> candidates))
        by (by rewrite <- list_fmap_compose).
      apply NoDup_fmap_2; [|done]. intros fb1 fb2. apply feedbackKey_inj.
    - intros w' _. cbn [fmap list_fmap]. apply not_elem_of_nil. }
  split; [exact Hcounts|].
  unfold Binary64.computeEntropyForGuess.
  destruct candidates as [|w cs]; [done|].
  change (length (w :: cs) =? 0) with false. cbv iota.
  fold (countPatterns g (w :: cs)). rewrite Hcounts.
  generalize (length (w :: cs)). intros n.
  generalize 0%float. generalize (w :: cs). clear.
  intros l. induction l as [|w l IH]; intros acc; [done|].
  cbn [fmap list_fmap foldl]. rewrite IH. done.
Qed.

Lemma computeEntropyForGuess_all_distinct_witness :
  NoDup (feedbackFor "aaaaa" <$> eleven_candidates)
  ∧ countPatterns "aaaaa" eleven_candidates
    = (λ w, (feedbackKey (feedbackFor "aaaaa" w), 1)) <$> eleven_candidates
  ∧ Binary64.computeEntropyForGuess Math_log2_at_eleven "aaaaa"
      (Some eleven_candidates)
    = foldl (λ entropy _,
               (entropy
                + (- (Binary64.number 1
                      / Binary64.number (length eleven_candidates)))
                  * Math_log2_at_eleven
                      (Binary64.number 1
                       / Binary64.number (length eleven_candidates)))%float)
        0%float eleven_candidates.
Proof.
  assert (H : NoDup (feedbackFor "aaaaa" <$> eleven_candidates)).
  { apply (bool_decide_unpack _). vm_compute. exact I. }
  split; [exact H|].
  exact (computeEntropyForGuess_all_distinct Math_log2_at_eleven "aaaaa"
           eleven_candidates H).
Defined.

(** * More on the selection step and the most likely candidate *)

Section SelectionFacts.

Import ArraySort.

Implicit Types (s : Suggestion.t) (l ent : list Suggestion.t).

Lemma insert_in_front x l :
  Forall (λ s, (Suggestion.bits s <= Suggestion.bits x)%R) l →
  insert byBitsDescending x l = x :: l.
Proof.
  destruct l as [|y l]; [done|]. intros Hall.
  apply Forall_cons in Hall as [Hy _]. simpl.
  unfold byBitsDescending at 1. destruct (Rlt_dec _ _); [lra|done].
Qed.

(** Sorting a list that is already descending changes nothing. *)
Lemma sort_descending_id l : descending l → sort byBitsDescending l = l.
Proof.
  unfold descending. induction l as [|x l IH]; intros Hs; [done|].
  apply StronglySorted_inv in Hs as [Hl Hx]. simpl.
  rewrite IH by done. by apply insert_in_front.
Qed.

Lemma descending_take n l : descending l → descending (take n l).
Proof.
  unfold descending. revert n. induction l as [|x l IH]; intros [|n] Hs;
    simpl; try constructor.
  - apply IH. by apply StronglySorted_inv in Hs as [? _].
  - apply StronglySorted_inv in Hs as [_ Hx]. by apply Forall_take.
Qed.

Lemma descending_app l1 l2 s s' :
  descending (l1 ++ l2) → s ∈ l1 → s' ∈ l2 →
  (Suggestion.bits s' <= Suggestion.bits s)%R.
Proof.
  unfold descending. induction l1 as [|x l1 IH]; intros Hs Hin Hin';
    [by apply elem_of_nil in Hin|].
  simpl in Hs. apply StronglySorted_inv in Hs as [Hl Hx].
  apply elem_of_cons in Hin as [->|Hin]; [|by apply IH].
  rewrite List.Forall_forall in Hx. apply Hx.
  apply list_elem_of_In, elem_of_app. by right.
Qed.

Lemma mostLikelyCandidate_head (cs : list string) :
  mostLikelyCandidate (Some cs) = head cs.
Proof. by destruct cs. Qed.

Lemma head_filter {A : Type} (f : A → bool) (l : list A) (w : A) :
  head (List.filter f l) = Some w
  ↔ ∃ pre post : list A, l = pre ++ w :: post ∧ f w = true
                          ∧ Forall (λ x, f x = false) pre.
Proof.
  induction l as [|x l IH]; simpl.
  - split; [done|]. intros (l1 & l2 & E & _). by destruct l1.
  - destruct (f x) eqn:Hx; simpl.
    + split.
      * intros [= ->]. by exists [], l.
      * intros (l1 & l2 & E & Hw & Hall). destruct l1 as [|y l1].
        -- simpl in E. by simplify_eq.
        -- simpl in E. simplify_eq. apply Forall_cons in Hall as [Hy _].
           congruence.
    + rewrite IH. split.
      * intros (l1 & l2 & -> & Hw & Hall). exists (x :: l1), l2.
        split; [done|]. split; [done|]. by constructor.
      * intros (l1 & l2 & E & Hw & Hall). destruct l1 as [|y l1].
        -- simpl in E. simplify_eq. congruence.
        -- simpl in E. simplify_eq. apply Forall_cons in Hall as [_ Hall].
           by exists l1, l2.
Qed.

End SelectionFacts.

(** X17. The suggestions that are selected have at least the bits of any
    suggestion that is left out. *)
Theorem selectTop_dominates (ent : list Suggestion.t) (s s' : Suggestion.t) :
  s ∈ selectTop ent → s' ∈ ent → s' ∉ selectTop ent →
  (Suggestion.bits s' <= Suggestion.bits s)%R.
Proof.
  unfold selectTop. intros Hs Hs' Hout.
  set (sorted := ArraySort.sort byBitsDescending ent) in *.
  assert (Hperm : ent ≡ₚ sorted) by apply sort_Permutation.
  assert (Hin : s' ∈ sorted) by (by rewrite <- Hperm).
  rewrite <- (take_drop 10 sorted) in Hin.
  apply elem_of_app in Hin as [Hin|Hin]; [done|].
  apply (descending_app (take 10 sorted) (drop 10 sorted)); [|done..].
  rewrite take_drop. apply sort_descending.
Qed.

Lemma selectTop_dominates_witness :
  let s := Suggestion.mk "crane" 1 in
  let s' := Suggestion.mk "slate" 0 in
  let ent := replicate 10 s ++ [s'] in
  (s ∈ selectTop ent ∧ s' ∈ ent ∧ s' ∉ selectTop ent)
  ∧ (Suggestion.bits s' <= Suggestion.bits s)%R.
Proof.
  intros s s' ent.
  assert (Hd : ∀ n, descending (replicate n s ++ [s'])).
  { unfold descending. induction n as [|n IH]; simpl.
    - apply SSorted_cons; [apply SSorted_nil | apply Forall_nil_2].
    - apply SSorted_cons; [exact IH|]. apply Forall_app. split.
      + apply Forall_replicate. simpl. lra.
      + apply Forall_singleton. simpl. lra. }
  assert (Htop : selectTop ent = replicate 10 s)
    by (unfold selectTop; by rewrite (sort_descending_id ent (Hd 10))).
  assert (H1 : s ∈ selectTop ent) by (rewrite Htop; by left).
  assert (H2 : s' ∈ ent) by (apply elem_of_app; right; by left).
  assert (H3 : s' ∉ selectTop ent).
  { rewrite Htop. intros [H _]%elem_of_replicate. discriminate H. }
  split; [by repeat split|].
  exact (selectTop_dominates ent s s' H1 H2 H3).
Defined.

(** X18. Selecting from a selection changes nothing. *)
Theorem selectTop_idempotent (ent : list Suggestion.t) :
  selectTop (selectTop ent) = selectTop ent.
Proof.
  unfold selectTop.
  rewrite (sort_descending_id (take 10 _))
    by apply descending_take, sort_descending.
  by rewrite take_take.
Qed.

(** X19. The top guesses of a dictionary and a history, whatever number
    the entropy of a guess is: there are 10 of them, or as many as there
    are candidates when these are fewer; each is a candidate with the
    entropy computed for it over the candidates; and no guess comes twice
    when the dictionary has no word twice. *)
Theorem topGuesses_shape
    (bitsOf : string → list string → R)
    (words : list string) (history : list HistoryEntry) :
  let cands := filterCandidates (Some words) (Some history) in
  length (topGuessesWith bitsOf words history) = 10 `min` length cands
  ∧ (∀ s, s ∈ topGuessesWith bitsOf words history →
          Suggestion.guess s ∈ cands
          ∧ Suggestion.bits s = bitsOf (Suggestion.guess s) cands)
  ∧ (NoDup words →
     NoDup (Suggestion.guess <$> topGuessesWith bitsOf words history)).
Proof.
  intros cands. unfold topGuessesWith, selectTop. fold cands.
  pose proof (sort_Permutation (rankWith bitsOf cands)) as Hperm.
  set (sorted := ArraySort.sort byBitsDescending (rankWith bitsOf cands)) in *.
  assert (Hguesses : Suggestion.guess <$> rankWith bitsOf cands = cands).
  { unfold rankWith. rewrite <- list_fmap_compose. clear.
    induction cands as [|c cands IH]; [done|].
    cbn [fmap list_fmap]. by f_equal. }
  split; [|split].
  - rewrite length_take, <- Hperm. unfold rankWith. by rewrite length_fmap.
  - intros s Hs. apply elem_of_take in Hs as (i & Hs & _).
    apply list_elem_of_lookup_2 in Hs. rewrite <- Hperm in Hs.
    unfold rankWith in Hs. apply list_elem_of_fmap in Hs as (g & -> & Hg).
    by split.
  - intros Hnd. rewrite fmap_take. eapply sublist_NoDup; [|apply sublist_take].
    rewrite <- Hperm, Hguesses. by apply filterCandidates_NoDup.
Qed.

(** X20. The two displays go together: there is no suggestion exactly when
    there is no candidate, and exactly when there is no most likely
    candidate. *)
Theorem no_suggestion_iff_no_candidate
    (words : list string) (history : list HistoryEntry) :
  let cands := filterCandidates (Some words) (Some history) in
  (topGuesses words history = [] ↔ cands = [])
  ∧ (mostLikelyCandidate (Some cands) = None ↔ cands = []).
Proof.
  intros cands. split.
  - unfold topGuesses. fold cands. split.
    + intros H. apply (f_equal length) in H. unfold selectTop in H.
      rewrite length_take, <- (sort_Permutation (rank cands)) in H.
      unfold rank in H. rewrite length_fmap in H. simpl in H.
      destruct cands; [done|]. simpl in H. lia.
    + by intros ->.
  - rewrite mostLikelyCandidate_head. by destruct cands.
Qed.

(** X21. The most likely candidate is the first word of the dictionary, in
    dictionary order, that agrees with every entry of the history. *)
Theorem mostLikely_is_first_consistent
    (words : list string) (history : list HistoryEntry) (w : string) :
  mostLikelyCandidate (Some (filterCandidates (Some words) (Some history)))
  = Some w
  ↔ ∃ before after,
      words = before ++ w :: after
      ∧ Forall (λ h, feedbackFor (guess h) w = feedback h) history
      ∧ Forall (λ c, ¬ Forall (λ h, feedbackFor (guess h) c = feedback h)
                         history) before.
Proof.
  rewrite mostLikelyCandidate_head, filterCandidates_filter, head_filter.
  split.
  - intros (l1 & l2 & -> & Hw & Hall). exists l1, l2. split; [done|].
    split; [by apply consistent_Forall|].
    eapply Forall_impl; [exact Hall|]. simpl. intros c Hc.
    rewrite <- consistent_Forall. congruence.
  - intros (l1 & l2 & -> & Hw & Hall). exists l1, l2. split; [done|].
    split; [by apply consistent_Forall|].
    eapply Forall_impl; [exact Hall|]. simpl. intros c Hc.
    rewrite <- consistent_Forall in Hc. by destruct (consistent history c).
Qed.

(** * The handlers of the component *)

Section Handlers.

Variable normalise : string → string.

Implicit Types (st : App.state) (e : App.event) (es : list App.event).

Lemma handle_well_formed st e st' :
  well_formed st → App.handle normalise st e = Some st' → well_formed st'.
Proof.
  intros [Hfb Hh]. destruct e as [s|i val| | |]; simpl.
  - intros [= <-]. by split.
  - unfold App.setFeedbackAt. destruct (i <? _); [|done].
    intros [= <-]. split; [|done]. simpl. by rewrite length_insert.
  - intros [= <-]. unfold App.applyGuess.
    destruct (validWord (normalise (App.guessText st))) eqn:Hv; simpl.
    + split; [done|]. constructor; [|done]. by split.
    + by split.
  - intros [= <-]. split; [done|]. simpl.
    destruct (0 <? _); [|done]. by apply Forall_drop.
  - intros [= <-]. split; [done|]. simpl. constructor.
Qed.

Lemma run_well_formed es : ∀ st st',
  well_formed st → App.run normalise st es = Some st' → well_formed st'.
Proof.
  induction es as [|e es IH]; intros st st' Hwf; simpl.
  - by intros [= <-].
  - destruct (App.handle normalise st e) as [st1|] eqn:He; [|done].
    apply IH. by eapply handle_well_formed.
Qed.

Lemma initial_well_formed : well_formed App.initial.
Proof. split; [done|constructor]. Qed.

Lemma filterCandidates_cons (ws : list string) h (hs : list HistoryEntry) :
  filterCandidates (Some ws) (Some (h :: hs))
  = List.filter (consistent [h]) (filterCandidates (Some ws) (Some hs)).
Proof.
  rewrite <- filterCandidates_app, !filterCandidates_filter.
  apply filter_ext. intros c. apply consistent_Permutation.
  change (h :: hs) with ([h] ++ hs). apply Permutation_app_comm.
Qed.

End Handlers.

(** X22. Whatever the user does, starting from the initial state, there
    are five feedback boxes, and every entry of the history holds a guess
    that passed [/^[a-z]{5}$/] and a feedback of five cells. *)
Theorem app_invariant
    (normalise : string → string) (es : list App.event) (st : App.state) :
  App.run normalise App.initial es = Some st →
  length (App.feedbackBoxes st) = 5
  ∧ Forall (λ h, validWord (guess h) = true ∧ length (feedback h) = 5)
      (App.history st).
Proof.
  intros Hrun.
  exact (run_well_formed normalise es _ _ initial_well_formed Hrun).
Qed.

Lemma app_invariant_witness :
  let es := [App.TypeGuess "crane"; App.SelectFeedback 2 CORRECT;
             App.Apply; App.TypeGuess "xy"; App.Apply] in
  let st := App.mk "xy" [ABSENT; ABSENT; ABSENT; ABSENT; ABSENT]
              [mkEntry "crane" [ABSENT; ABSENT; CORRECT; ABSENT; ABSENT]] in
  App.run (λ s, s) App.initial es = Some st
  ∧ length (App.feedbackBoxes st) = 5
  ∧ Forall (λ h, validWord (guess h) = true ∧ length (feedback h) = 5)
      (App.history st).
Proof.
  intros es st.
  assert (H : App.run (λ s, s) App.initial es = Some st) by reflexivity.
  split; [exact H|]. exact (app_invariant (λ s, s) es st H).
Defined.

(** X23. Undo after an accepted Apply gives back the history as it was
    (the guess text and the feedback boxes stay cleared). *)
Theorem apply_then_undo (normalise : string → string) (st : App.state) :
  validWord (normalise (App.guessText st)) = true →
  App.undoLast (App.applyGuess normalise st)
  = App.mk "" [ABSENT; ABSENT; ABSENT; ABSENT; ABSENT] (App.history st).
Proof.
  unfold App.applyGuess. intros ->. unfold App.undoLast. simpl.
  by rewrite drop_0.
Qed.

Lemma apply_then_undo_witness :
  let st := App.mk "crane" [ABSENT; ABSENT; CORRECT; ABSENT; ABSENT]
              [mkEntry "slate" [ABSENT; ABSENT; CORRECT; ABSENT; CORRECT]] in
  validWord (App.guessText st) = true
  ∧ App.undoLast (App.applyGuess (λ s, s) st)
    = App.mk "" [ABSENT; ABSENT; ABSENT; ABSENT; ABSENT] (App.history st).
Proof.
  intros st.
  assert (H : validWord (App.guessText st) = true) by reflexivity.
  split; [exact H|]. exact (apply_then_undo (λ s, s) st H).
Defined.

(** X24. Apply never adds a candidate and Undo never takes one away: the
    candidates after an Apply are among the candidates before it, in the
    same order, and the candidates before an Undo are among those after
    it; after Reset the candidates are the whole dictionary. *)
Theorem candidates_follow_history
    (normalise : string → string) (words : list string) (st : App.state) :
  filterCandidates (Some words)
    (Some (App.history (App.applyGuess normalise st)))
  `sublist_of` filterCandidates (Some words) (Some (App.history st))
  ∧ filterCandidates (Some words) (Some (App.history st))
    `sublist_of` filterCandidates (Some words)
                   (Some (App.history (App.undoLast st)))
  ∧ filterCandidates (Some words) (Some (App.history (App.resetAll st)))
    = words.
Proof.
  split; [|split].
  - unfold App.applyGuess. destruct (negb _); [done|]. cbn [App.history].
    rewrite filterCandidates_cons. apply filter_sublist.
  - unfold App.undoLast. cbn [App.history].
    destruct (App.history st) as [|h hs]; [done|].
    cbn [length Nat.ltb Nat.leb drop]. rewrite filterCandidates_cons.
    apply filter_sublist.
  - cbn [App.resetAll App.history]. unfold filterCandidates.
    by destruct words.
Qed.



(** * The loader *)

Section Loader.

Implicit Types (text line rest sep : string) (lines : list string).

Lemma append_String c line rest :
  String.append (String c line) rest = String c (String.append line rest).
Proof. reflexivity. Qed.

Lemma append_empty_r line : String.append line "" = line.
Proof.
  induction line as [|c line IH]; [done|]. by rewrite append_String, IH.
Qed.

Lemma append_assoc line rest text :
  String.append (String.append line rest) text
  = String.append line (String.append rest text).
Proof.
  induction line as [|c line IH]; [done|]. by rewrite !append_String, IH.
Qed.

Lemma splitLines_not_nil text : splitLines text ≠ [].
Proof.
  induction text as [|c text IH]; [done|]. simpl.
  destruct (Ascii.eqb c "010"); [done|].
  assert (Hp : prepend c (splitLines text) ≠ [])
    by (by destruct (splitLines text)).
  destruct text as [|c' text']; [done|].
  by destruct (Ascii.eqb c "013" && Ascii.eqb c' "010").
Qed.

Lemma splitLines_plain_char c text :
  c ≠ "010"%char → c ≠ "013"%char →
  splitLines (String c text) = prepend c (splitLines text).
Proof.
  intros Hlf Hcr. cbn [splitLines].
  apply Ascii.eqb_neq in Hlf, Hcr. rewrite Hlf, Hcr.
  by destruct text.
Qed.

(** A plain line in front of a text goes in front of its first piece. *)
Lemma splitLines_append_plain line rest :
  plain_line line →
  splitLines (String.append line rest)
  = match splitLines rest with
    | piece :: pieces => String.append line piece :: pieces
    | [] => [line]
    end.
Proof.
  unfold plain_line, split.
  induction line as [|c line IH]; intros Hplain.
  - change (String.append "" rest) with rest.
    pose proof (splitLines_not_nil rest) as Hne.
    by destruct (splitLines rest).
  - cbn [String.list_ascii_of_string] in Hplain.
    apply Forall_cons in Hplain as [[Hlf Hcr] Hplain].
    rewrite append_String, splitLines_plain_char by done.
    rewrite IH by done. by destruct (splitLines rest).
Qed.

Lemma splitLines_line_then sep line rest :
  sep = String "010" "" ∨ sep = String "013" (String "010" "") →
  plain_line line →
  splitLines (String.append line (String.append sep rest))
  = line :: splitLines rest.
Proof.
  intros Hsep Hplain. rewrite splitLines_append_plain by done.
  assert (splitLines (String.append sep rest) = "" :: splitLines rest) as ->
    by (by destruct Hsep as [-> | ->]).
  by rewrite append_empty_r.
Qed.

Lemma splitLines_single line : plain_line line → splitLines line = [line].
Proof.
  intros Hplain. pose proof (splitLines_append_plain line "" Hplain) as E.
  cbn [splitLines] in E. by rewrite append_empty_r in E.
Qed.

Lemma splitLines_concat sep lines :
  sep = String "010" "" ∨ sep = String "013" (String "010" "") →
  lines ≠ [] → Forall plain_line lines →
  splitLines (String.concat sep lines) = lines.
Proof.
  intros Hsep Hne Hall. induction lines as [|line lines IH]; [done|].
  apply Forall_cons in Hall as [Hline Hall].
  destruct lines as [|line' lines].
  - by apply splitLines_single.
  - rewrite concat_cons_cons, splitLines_line_then by done.
    f_equal. by apply IH.
Qed.

Lemma is_lower_plain c :
  is_lower c = true → c ≠ "010"%char ∧ c ≠ "013"%char.
Proof. intros H. split; intros ->; discriminate H. Qed.

Lemma validWord_plain w : validWord w = true → plain_line w.
Proof.
  unfold validWord, plain_line. rewrite andb_true_iff, forallb_forall.
  intros [_ Hall]. apply Forall_forall. intros c Hc.
  apply is_lower_plain, Hall. by apply list_elem_of_In.
Qed.

Lemma filter_all_true {A : Type} (f : A → bool) (l : list A) :
  Forall (λ x, f x = true) l → List.filter f l = l.
Proof.
  induction 1 as [|x l Hx _ IH]; simpl; [done|]. by rewrite Hx, IH.
Qed.

(** Joining the pieces of a text that has no carriage return with line
    feeds gives the text back. *)
Lemma concat_splitLines text :
  "013"%char ∉ split text →
  String.concat (String "010" "") (splitLines text) = text.
Proof.
  unfold split. induction text as [|c text IH]; intros Hcr; [done|].
  cbn [String.list_ascii_of_string] in Hcr.
  apply not_elem_of_cons in Hcr as [Hc Hcr]. specialize (IH Hcr).
  destruct (Ascii.eqb c "010") eqn:Hlf.
  - apply Ascii.eqb_eq in Hlf. subst c.
    change (splitLines (String "010" text)) with ("" :: splitLines text).
    pose proof (splitLines_not_nil text) as Hne.
    destruct (splitLines text) as [|piece pieces]; [done|].
    rewrite concat_cons_cons, IH. done.
  - apply Ascii.eqb_neq in Hlf.
    rewrite splitLines_plain_char by done.
    pose proof (splitLines_not_nil text) as Hne.
    destruct (splitLines text) as [|piece pieces]; [done|].
    cbn [prepend]. destruct pieces as [|piece' pieces].
    + simpl in *. by rewrite IH.
    + rewrite concat_cons_cons in *. by rewrite append_String, IH.
Qed.

End Loader.

(** X26. Splitting into lines undoes joining: lines without a line feed
    or a carriage return in them, joined with line feeds or with carriage
    return and line feed, split into the same lines. *)
Theorem splitLines_round_trip (lines : list string) :
  lines ≠ [] → Forall plain_line lines →
  splitLines (String.concat (String "010" "") lines) = lines
  ∧ splitLines (String.concat (String "013" (String "010" "")) lines)
    = lines.
Proof. intros Hne Hall. split; apply splitLines_concat; auto. Qed.

Lemma splitLines_round_trip_witness :
  (["crane"; ""; "slate"] ≠ [] ∧ Forall plain_line ["crane"; ""; "slate"])
  ∧ splitLines (String.concat (String "010" "") ["crane"; ""; "slate"])
    = ["crane"; ""; "slate"]
  ∧ splitLines
      (String.concat (String "013" (String "010" "")) ["crane"; ""; "slate"])
    = ["crane"; ""; "slate"].
Proof.
  assert (H1 : ["crane"; ""; "slate"] ≠ []) by discriminate.
  assert (H2 : Forall plain_line ["crane"; ""; "slate"]).
  { unfold plain_line. repeat constructor; discriminate. }
  split; [by split|].
  exact (splitLines_round_trip ["crane"; ""; "slate"] H1 H2).
Defined.

(** X27. A word file holding words that pass [/^[a-z]{5}$/], one per line,
    with line feeds or with carriage return and line feed between them and
    with or without a line end after the last one, loads as exactly these
    words in their order, given that trimming and lower-casing leave such
    words and the empty line as they are. *)
Theorem loadText_round_trip
    (normalise : string → string) (words : list string) (sep : string) :
  (∀ w, validWord w = true → normalise w = w) → normalise "" = "" →
  sep = String "010" "" ∨ sep = String "013" (String "010" "") →
  words ≠ [] → Forall (λ w, validWord w = true) words →
  loadText normalise (String.concat sep words) = words
  ∧ loadText normalise (String.append (String.concat sep words) sep) = words.
Proof.
  intros Hfix Hempty Hsep Hne Hall.
  assert (Hplain : Forall plain_line words)
    by (eapply Forall_impl; [exact Hall|]; apply validWord_plain).
  assert (Hmap : normalise <$> words = words).
  { clear Hne Hplain. induction Hall as [|w ws Hw _ IH]; [done|].
    cbn [fmap list_fmap]. rewrite (Hfix w Hw). f_equal. exact IH. }
  unfold loadText. split.
  - rewrite splitLines_concat, Hmap by done. by apply filter_all_true.
  - assert (splitLines (String.append (String.concat sep words) sep)
            = words ++ [""]) as ->.
    { clear Hmap Hall. induction words as [|w ws IH]; [done|].
      apply Forall_cons in Hplain as [Hw Hws]. destruct ws as [|w' ws].
      - cbn [String.concat]. rewrite <- (append_empty_r sep) at 1.
        by rewrite splitLines_line_then.
      - rewrite concat_cons_cons.
        rewrite !append_assoc.
        rewrite splitLines_line_then by done.
        rewrite IH by done. done. }
    rewrite fmap_app, Hmap. cbn [fmap list_fmap]. rewrite Hempty.
    rewrite List.filter_app, (filter_all_true validWord words) by done.
    by rewrite app_nil_r.
Qed.

Lemma loadText_round_trip_witness :
  ((∀ w, validWord w = true → (λ s : string, s) w = w)
   ∧ (λ s : string, s) "" = ""
   ∧ (String "010" "" = String "010" ""
      ∨ String "010" "" = String "013" (String "010" ""))
   ∧ ["crane"; "slate"] ≠ []
   ∧ Forall (λ w, validWord w = true) ["crane"; "slate"])
  ∧ loadText (λ s, s) (String.concat (String "010" "") ["crane"; "slate"])
    = ["crane"; "slate"].
Proof.
  assert (H1 : ∀ w, validWord w = true → (λ s : string, s) w = w) by done.
  assert (H2 : (λ s : string, s) "" = "") by done.
  assert (H3 : String "010" "" = String "010" ""
               ∨ String "010" "" = String "013" (String "010" ""))
    by (by left).
  assert (H4 : ["crane"; "slate"] ≠ []) by discriminate.
  assert (H5 : Forall (λ w, validWord w = true) ["crane"; "slate"])
    by (repeat constructor).
  split; [by repeat split|].
  exact (proj1 (loadText_round_trip (λ s, s) ["crane"; "slate"]
                  (String "010" "") H1 H2 H3 H4 H5)).
Defined.


(** X29. Joining undoes splitting: the pieces of a text without a carriage
    return, joined with line feeds, give the text back; no character is
    lost and no line end is added. *)
Theorem join_splitLines (text : string) :
  "013"%char ∉ split text →
  String.concat (String "010" "") (splitLines text) = text.
Proof. apply concat_splitLines. Qed.

Lemma join_splitLines_witness :
  let text := String.concat (String "010" "") ["crane"; "slate"; ""] in
  ("013"%char ∉ split text)
  ∧ String.concat (String "010" "") (splitLines text) = text.
Proof.
  intros text.
  assert (H : "013"%char ∉ split text).
  { intros H. apply list_elem_of_In in H. vm_compute in H.
    repeat destruct H as [H|H]; try discriminate H. exact H. }
  split; [exact H|]. exact (join_splitLines text H).
Defined.
